(** * emjtxt: the width-aware text engine and the marquee animator

    A shallow embedding of [src/animation.ts]: its three text helpers
    ([getVisibleWidth], [padToWidth], [visibleSubstring]), the frame that
    both animation drivers draw, the body of the endless loop of
    [runAnimation], and [runSingleCycle] in full, with the properties the
    design document states about them.  After these come the first passes
    of [runAnimation] and the pure parts of the modules around the
    animator: the message builders of [slack.ts], the intensity function of
    [themes.ts], the file-name helpers of [output.ts] and the input parsing
    of [emoji.ts].

    A JavaScript string is a sequence of UTF-16 code units.  The string
    iterator ([for (const char of str)], [[...str]]) yields code points: a
    high surrogate directly followed by a low surrogate is one item of two
    code units, every other code unit is an item of its own. *)

From Stdlib Require Import ZArith List Bool Lia FunInd Recdef.
From Stdlib Require Strings.String Strings.Ascii.
Import String.StringSyntax.
Delimit Scope string_scope with string.
Import ListNotations.
Open Scope Z_scope.

(** ** JavaScript strings *)

Module JS.

Definition code_unit := Z.
Definition js_string := list code_unit.

Definition is_high_surrogate (c : code_unit) : bool :=
  (0xD800 <=? c) && (c <=? 0xDBFF).

Definition is_low_surrogate (c : code_unit) : bool :=
  (0xDC00 <=? c) && (c <=? 0xDFFF).

(** [String.prototype[Symbol.iterator]]: the items a [for ... of] loop or a
    spread [[...str]] sees. *)
Fixpoint chars (str : js_string) : list js_string :=
  match str with
  | [] => []
  | c :: rest =>
      match rest with
      | d :: rest' =>
          if is_high_surrogate c && is_low_surrogate d
          then [c; d] :: chars rest'
          else [c] :: chars rest
      | [] => [[c]]
      end
  end.

(** [str.codePointAt(0)]; [None] is [undefined] (empty string). *)
Definition codePointAt0 (str : js_string) : option Z :=
  match str with
  | [] => None
  | c :: rest =>
      if is_high_surrogate c then
        match rest with
        | d :: _ =>
            if is_low_surrogate d
            then Some ((c - 0xD800) * 0x400 + (d - 0xDC00) + 0x10000)
            else Some c
        | [] => Some c
        end
      else Some c
  end.

(** [x || 0] on a number-or-undefined. *)
Definition or_zero (x : option Z) : Z :=
  match x with
  | Some v => v
  | None => 0
  end.

(** Total part of [String.prototype.repeat]: [count] copies of [s]. *)
Fixpoint repeat_nat (s : js_string) (count : nat) : js_string :=
  match count with
  | O => []
  | S n => s ++ repeat_nat s n
  end.

(** [str.split('\n')]: never the empty array. *)
Fixpoint split (sep : code_unit) (str : js_string) : list js_string :=
  match str with
  | [] => [[]]
  | c :: rest =>
      if c =? sep then [] :: split sep rest
      else match split sep rest with
           | piece :: pieces => (c :: piece) :: pieces
           | [] => [[c]]
           end
  end.

(** [Math.max(...xs)]; [None] stands for [-Infinity], the value on no
    argument. *)
Definition Math_max (xs : list Z) : option Z :=
  match xs with
  | [] => None
  | x :: rest => Some (fold_left Z.max rest x)
  end.

End JS.
Import JS.

(** ** Completions: a value, or a thrown error *)

Inductive js_error : Type :=
| RangeError
| WriteError.

Inductive completion (A : Type) : Type :=
| Normal (a : A)
| Throw (e : js_error).
Arguments Normal {A} a.
Arguments Throw {A} e.

Definition raises {A : Type} (c : completion A) : Prop :=
  exists e, c = Throw e.

Definition cbind {A B : Type} (c : completion A) (k : A -> completion B)
  : completion B :=
  match c with
  | Normal a => k a
  | Throw e => Throw e
  end.

(** [str.repeat(count)] throws a RangeError on a negative count. *)
Definition repeat (s : js_string) (count : Z) : completion js_string :=
  if count <? 0 then Throw RangeError
  else Normal (repeat_nat s (Z.to_nat count)).

(** ** The text engine of animation.ts *)

Definition SPACE : js_string := [32].
Definition NEWLINE : code_unit := 10.

(** The body of the loop of [getVisibleWidth]: [width] after one more
    [char]. *)
Definition getVisibleWidth_step (width : Z) (char : js_string) : Z :=
  let code := or_zero (codePointAt0 char) in
  if code >? 0x1F300 then width + 2 else width + 1.

Definition getVisibleWidth (str : js_string) : Z :=
  fold_left getVisibleWidth_step (chars str) 0.

(** [padChar] is an optional parameter with default [' ']. *)
Definition padToWidth (str : js_string) (targetWidth : Z)
  (padChar : option js_string) : completion js_string :=
  let padChar := match padChar with Some p => p | None => SPACE end in
  let currentWidth := getVisibleWidth str in
  if currentWidth >=? targetWidth then Normal str
  else
    let padCount := targetWidth - currentWidth in
    cbind (repeat padChar padCount) (fun pad => Normal (str ++ pad)).

(** The [for (const char of chars)] loop of [visibleSubstring], with its
    three mutable variables as accumulators; [break] returns [result]. *)
Fixpoint visibleSubstring_loop (chars : list js_string) (start length : Z)
  (currentPos : Z) (result : js_string) (resultWidth : Z) : js_string :=
  match chars with
  | [] => result
  | char :: rest =>
      let charWidth := getVisibleWidth char in
      if currentPos + charWidth <=? start then
        visibleSubstring_loop rest start length
          (currentPos + charWidth) result resultWidth
      else if resultWidth >=? length then result
      else
        visibleSubstring_loop rest start length
          (currentPos + charWidth) (result ++ char) (resultWidth + charWidth)
  end.

Definition visibleSubstring (str : js_string) (start length : Z) : js_string :=
  visibleSubstring_loop (chars str) start length 0 [] 0.

(** ** Segmentations: lists of iterator items

    [segmented us] says that [us] is what the iterator yields on the
    concatenation of [us]: every item is one code unit or a surrogate pair,
    and no lone high surrogate stands directly before a lone low one. *)

Definition head_is_low (us : list js_string) : bool :=
  match us with
  | (d :: _) :: _ => is_low_surrogate d
  | _ => false
  end.

Inductive segmented : list js_string -> Prop :=
| seg_nil : segmented []
| seg_lone (c : code_unit) (us : list js_string) :
    is_high_surrogate c && head_is_low us = false ->
    segmented us -> segmented ([c] :: us)
| seg_pair (c d : code_unit) (us : list js_string) :
    is_high_surrogate c && is_low_surrogate d = true ->
    segmented us -> segmented ([c; d] :: us).

(** The summed width of a list of items, each measured as the loop of
    [visibleSubstring] measures it. *)
Definition total_width (us : list js_string) : Z :=
  fold_right (fun u acc => getVisibleWidth u + acc) 0 us.

(** ** visibleSubstring as skip-then-collect

    The two phases the description of [visibleSubstring] names, written
    as two functions of their own over the items of the string. *)

(** Drop the leading items whose cumulative width ends at or before
    [start]; [pos] is the width already passed. *)
Fixpoint skip_before (start pos : Z) (us : list js_string) : list js_string :=
  match us with
  | [] => []
  | u :: rest =>
      if pos + getVisibleWidth u <=? start
      then skip_before start (pos + getVisibleWidth u) rest
      else us
  end.

(** Take items until the width taken so far, [acc], reaches [length]. *)
Fixpoint collect_until (length acc : Z) (us : list js_string)
  : list js_string :=
  match us with
  | [] => []
  | u :: rest =>
      if acc >=? length then []
      else u :: collect_until length (acc + getVisibleWidth u) rest
  end.

Definition visibleSubstring_spec (str : js_string) (start length : Z)
  : js_string :=
  concat (collect_until length 0 (skip_before start 0 (chars str))).

(** Whether a string starts with a low surrogate. *)
Definition head_low_unit (str : js_string) : bool :=
  match str with
  | d :: _ => is_low_surrogate d
  | [] => false
  end.

(** The pad string in use: the argument, or the default [' ']. *)
Definition pad_of (padChar : option js_string) : js_string :=
  match padChar with
  | Some p => p
  | None => SPACE
  end.

(** Strings whose code units are all 16-bit values. *)
Definition sixteen_bit (str : js_string) : Prop :=
  Forall (fun c => 0 <= c < 65536) str.

(** Whether some run of leading items of [us], entered at width [pos], ends
    exactly at column [target]: no item straddles that column. *)
Fixpoint item_boundary (us : list js_string) (pos target : Z) : bool :=
  (pos =? target) ||
  match us with
  | [] => false
  | u :: rest => item_boundary rest (pos + getVisibleWidth u) target
  end.

(** ** Graphemes

    What a reader sees as one glyph can take several code points.  By the
    rule of Unicode text segmentation that forbids a break before an
    extending code point, a variation selector (U+FE00 to U+FE0F) and the
    zero width joiner (U+200D) belong to the grapheme of the item before
    them; the emoji pattern of the repository lists both as parts of an
    emoji, and its alias table has U+2764 U+FE0F for [heart].  The full
    rules only join more, so a cut inside a grapheme of [graphemes] is a
    cut inside a grapheme of the standard. *)

Definition grapheme_extend (u : js_string) : bool :=
  match u with
  | [c] => ((0xFE00 <=? c) && (c <=? 0xFE0F)) || (c =? 0x200D)
  | _ => false
  end.

(** The graphemes of the items [us] that follow the open grapheme
    [current]. *)
Fixpoint group_graphemes (current : js_string) (us : list js_string)
  : list js_string :=
  match us with
  | [] => [current]
  | u :: rest =>
      if grapheme_extend u then group_graphemes (current ++ u) rest
      else current :: group_graphemes u rest
  end.

Definition graphemes (str : js_string) : list js_string :=
  match chars str with
  | [] => []
  | u :: rest => group_graphemes u rest
  end.

(** [result] is a run of whole graphemes of [str]: no grapheme of [str]
    is split by it. *)
Definition whole_graphemes (str result : js_string) : Prop :=
  exists before run after,
    graphemes str = before ++ run ++ after /\ result = concat run.

(** ** The terminal

    What [process.stdout.write] and [sleep] leave behind: the chunks the
    terminal accepted and the pauses between them, oldest first.  A write
    the output sink rejects throws and leaves the terminal as it was. *)

Inductive event : Type :=
| EvWrite (chunk : js_string)
| EvSleep (ms : Z).

Definition world := list event.

Definition IO (A : Type) : Type := world -> completion A * world.

Definition ret {A : Type} (a : A) : IO A := fun w => (Normal a, w).

Definition bind {A B : Type} (m : IO A) (k : A -> IO B) : IO B :=
  fun w =>
    match m w with
    | (Normal a, w1) => k a w1
    | (Throw e, w1) => (Throw e, w1)
    end.

Definition lift {A : Type} (c : completion A) : IO A := fun w => (c, w).


Declare Scope io_scope.
Delimit Scope io_scope with io.
Notation "x <- m ;; k" := (bind m (fun x => k))
  (at level 100, m at next level, right associativity) : io_scope.
Notation "m ;;; k" := (bind m (fun _ => k))
  (at level 100, right associativity) : io_scope.

(** [Array.prototype.map] with a callback that may throw. *)
Fixpoint map_completion {A B : Type} (f : A -> completion B) (l : list A)
  : completion (list B) :=
  match l with
  | [] => Normal []
  | a :: rest =>
      cbind (f a) (fun b =>
      cbind (map_completion f rest) (fun bs => Normal (b :: bs)))
  end.

(** Decimal digits of a number, as a template literal prints it. *)
Fixpoint uint_digits (u : Decimal.uint) : js_string :=
  match u with
  | Decimal.Nil => []
  | Decimal.D0 u => 48 :: uint_digits u
  | Decimal.D1 u => 49 :: uint_digits u
  | Decimal.D2 u => 50 :: uint_digits u
  | Decimal.D3 u => 51 :: uint_digits u
  | Decimal.D4 u => 52 :: uint_digits u
  | Decimal.D5 u => 53 :: uint_digits u
  | Decimal.D6 u => 54 :: uint_digits u
  | Decimal.D7 u => 55 :: uint_digits u
  | Decimal.D8 u => 56 :: uint_digits u
  | Decimal.D9 u => 57 :: uint_digits u
  end.

Definition Number_toString (n : Z) : js_string :=
  match Z.to_int n with
  | Decimal.Pos u => uint_digits u
  | Decimal.Neg u => 45 :: uint_digits u
  end.

Module ANSI.
Definition ESC : code_unit := 27.
Definition CLEAR_LINE : js_string := [ESC; 91; 50; 75].
Definition CURSOR_TO_START : js_string := [ESC; 91; 48; 71].
Definition HIDE_CURSOR : js_string := [ESC; 91; 63; 50; 53; 108].
Definition SHOW_CURSOR : js_string := [ESC; 91; 63; 50; 53; 104].
Definition MOVE_UP (n : Z) : js_string :=
  [ESC; 91] ++ Number_toString n ++ [65].
Definition CLEAR_SCREEN : js_string := [ESC; 91; 50; 74].
Definition CURSOR_HOME : js_string := [ESC; 91; 72].
End ANSI.

Record AnimationConfig : Type := {
  speed : Z;
  terminalWidth : Z
}.

(** [Partial<AnimationConfig>]: an absent field is [None]. *)
Record PartialConfig : Type := {
  speed_opt : option Z;
  terminalWidth_opt : option Z
}.

(** [{ ...defaults, ...config }]. *)
Definition merge_config (defaults : AnimationConfig) (config : PartialConfig)
  : AnimationConfig :=
  {| speed := match speed_opt config with
              | Some v => v
              | None => speed defaults
              end;
     terminalWidth := match terminalWidth_opt config with
                      | Some v => v
                      | None => terminalWidth defaults
                      end |}.

(** The scroll offset of a frame, [terminalWidth - frame]. *)
Definition scroll_offset (terminalWidth frame : Z) : Z := terminalWidth - frame.

(** The display line of one banner line at one offset: the body of the
    inner [for] loop of both drivers, up to the write. *)
Definition displayLine (terminalWidth offset : Z) (line : js_string)
  : completion js_string :=
  cbind
    (if offset >=? 0 then
       cbind (repeat SPACE offset) (fun spaces =>
       Normal (spaces ++ visibleSubstring line 0 (terminalWidth - offset)))
     else
       let startPos := - offset in
       Normal (visibleSubstring line startPos terminalWidth))
    (fun displayLine => padToWidth displayLine terminalWidth None).

Section Animator.

(** The output sink: whether it rejects a chunk, given what the terminal
    holds so far. *)
Variable sink_rejects : world -> js_string -> bool.

(** [process.stdout.columns]; [None] when stdout is no terminal. *)
Variable stdout_columns : option Z.

Definition write (chunk : js_string) : IO unit :=
  fun w =>
    if sink_rejects w chunk then (Throw WriteError, w)
    else (Normal tt, w ++ [EvWrite chunk]).

Definition sleep (ms : Z) : IO unit :=
  fun w => (Normal tt, w ++ [EvSleep ms]).

Definition DEFAULT_CONFIG : AnimationConfig :=
  {| speed := 100;
     terminalWidth := match stdout_columns with
                      | Some c => if c =? 0 then 80 else c
                      | None => 80
                      end |}.

Open Scope io_scope.

(** [for (let i = 0; i < bannerHeight; i++)] over [paddedLines[i]]; [lines]
    are the lines from index [i] on. *)
Fixpoint draw_lines (terminalWidth offset bannerHeight : Z) (i : Z)
  (lines : list js_string) : IO unit :=
  match lines with
  | [] => ret tt
  | line :: rest =>
      displayLine <- lift (displayLine terminalWidth offset line) ;;
      write (ANSI.CLEAR_LINE ++ displayLine) ;;;
      (if i <? bannerHeight - 1 then write [NEWLINE] else ret tt) ;;;
      draw_lines terminalWidth offset bannerHeight (i + 1) rest
  end.

(** One frame: draw every line, move the cursor back, wait. *)
Definition tick (speed terminalWidth bannerHeight : Z)
  (paddedLines : list js_string) (frame : Z) : IO unit :=
  let offset := scroll_offset terminalWidth frame in
  draw_lines terminalWidth offset bannerHeight 0 paddedLines ;;;
  (if bannerHeight >? 1 then write (ANSI.MOVE_UP (bannerHeight - 1))
   else ret tt) ;;;
  write ANSI.CURSOR_TO_START ;;;
  sleep speed.

(** [for (let frame = ...; frame < totalFrames; frame++) body(frame)]:
    the loop ends because [totalFrames - frame] shrinks with every pass. *)
Function for_frames (totalFrames : Z) (body : Z -> IO unit) (frame : Z)
  (w : world) {measure (fun frame => Z.to_nat (totalFrames - frame)) frame}
  : completion unit * world :=
  if frame <? totalFrames then
    match body frame w with
    | (Normal _, w1) => for_frames totalFrames body (frame + 1) w1
    | (Throw e, w1) => (Throw e, w1)
    end
  else (Normal tt, w).
Proof. intros. apply Z.ltb_lt in teq. lia. Defined.

(** The body of the [while (true)] loop of [runAnimation]: one frame, then
    the frame counter of the next. *)
Definition animation_iteration (speed terminalWidth bannerHeight : Z)
  (paddedLines : list js_string) (totalFrames : Z) (frame : Z) : IO Z :=
  tick speed terminalWidth bannerHeight paddedLines frame ;;;
  ret (Z.rem (frame + 1) totalFrames).


End Animator.

(** ** Reading the terminal *)

Fixpoint starts_with (prefix str : js_string) : bool :=
  match prefix, str with
  | [], _ => true
  | p :: prefix', c :: str' => (p =? c) && starts_with prefix' str'
  | _ :: _, [] => false
  end.

(** The cursor visibility a terminal ends in after it has read [stream],
    starting from [visible]: the last show- or hide-cursor sequence wins. *)
Fixpoint cursor_scan (visible : bool) (stream : js_string) : bool :=
  match stream with
  | [] => visible
  | _ :: rest =>
      cursor_scan
        (if starts_with ANSI.HIDE_CURSOR stream then false
         else if starts_with ANSI.SHOW_CURSOR stream then true
         else visible)
        rest
  end.

Fixpoint output_stream (w : world) : js_string :=
  match w with
  | [] => []
  | EvWrite chunk :: rest => chunk ++ output_stream rest
  | EvSleep _ :: rest => output_stream rest
  end.

(** The terminal starts with a visible cursor. *)
Definition cursor_visible (w : world) : bool :=
  cursor_scan true (output_stream w).

(** The number of pauses taken, one per tick. *)
Fixpoint ticks (w : world) : Z :=
  match w with
  | [] => 0
  | EvSleep _ :: rest => 1 + ticks rest
  | EvWrite _ :: rest => ticks rest
  end.

(** An action that takes no pause. *)
Definition quiet {A : Type} (m : IO A) : Prop :=
  forall w, ticks (snd (m w)) = ticks w.

(** An action that pauses once when it completes and not at all when it
    throws. *)
Definition one_tick (m : IO unit) : Prop :=
  forall w,
    (fst (m w) = Normal tt /\ ticks (snd (m w)) = ticks w + 1) \/
    ((exists e, fst (m w) = Throw e) /\ ticks (snd (m w)) = ticks w).

(** An action that completes normally. *)
Definition completes {A : Type} (m : IO A) : Prop :=
  forall w, exists a, fst (m w) = Normal a.

(** A sink that accepts every chunk. *)
Definition accepting (sink : world -> js_string -> bool) : Prop :=
  forall w chunk, sink w chunk = false.

(** Two output sinks: one that accepts every chunk, one that rejects a
    chunk that is a single line feed. *)
Definition accept_all : world -> js_string -> bool := fun _ _ => false.

Definition reject_line_feed : world -> js_string -> bool :=
  fun _ chunk => starts_with chunk [NEWLINE] && starts_with [NEWLINE] chunk.


(** The maximum visual width over the lines of a banner. *)
Definition maxBannerVisualWidth (bannerText : js_string) : Z :=
  or_zero (Math_max (map getVisibleWidth (split NEWLINE bannerText))).

(** ** The endless animation

    [runAnimation] never leaves its [while (true)] loop by itself; what can
    be observed of it are the first [n] passes of the loop.  A result
    [Normal frame] of the functions below means: still in the loop, about
    to draw [frame]; [Throw] is the real completion of [runAnimation], after
    its [finally] block. Signals are not modelled. *)

Section Endless.

Variable sink_rejects : world -> js_string -> bool.
Variable stdout_columns : option Z.

Open Scope io_scope.

(** [n] passes of the [while (true)] loop, from frame counter [frame]. *)
Fixpoint animation_loop (n : nat) (speed terminalWidth bannerHeight : Z)
  (paddedLines : list js_string) (totalFrames : Z) (frame : Z) : IO Z :=
  match n with
  | O => ret frame
  | S n' =>
      next <- animation_iteration sink_rejects speed terminalWidth
                bannerHeight paddedLines totalFrames frame ;;
      animation_loop n' speed terminalWidth bannerHeight paddedLines
        totalFrames next
  end.

(** The [cleanup] closure of [runAnimation]. *)
Definition cleanup : IO unit :=
  write sink_rejects ANSI.SHOW_CURSOR ;;;
  write sink_rejects [NEWLINE].

(** [try { loop } finally { cleanup() }], the loop cut after [n] passes:
    the [finally] block is reached only by a throw. *)
Definition loop_finally (loop : IO Z) : IO Z :=
  fun w =>
    match loop w with
    | (Normal frame, w1) => (Normal frame, w1)
    | (Throw e, w1) =>
        match cleanup w1 with
        | (Normal _, w2) => (Throw e, w2)
        | (Throw e', w2) => (Throw e', w2)
        end
    end.

Definition runAnimation (n : nat) (bannerText : js_string)
  (config : PartialConfig) : IO Z :=
  let merged := merge_config (DEFAULT_CONFIG stdout_columns) config in
  let speed := speed merged in
  let terminalWidth := terminalWidth merged in
  let lines := split NEWLINE bannerText in
  let bannerHeight := Z.of_nat (length lines) in
  match Math_max (map getVisibleWidth lines) with
  | Some maxBannerWidth =>
      paddedLines <-
        lift (map_completion
                (fun line => padToWidth line maxBannerWidth None) lines) ;;
      let totalFrames := terminalWidth + maxBannerWidth in
      write sink_rejects ANSI.HIDE_CURSOR ;;;
      loop_finally
        (animation_loop n speed terminalWidth bannerHeight paddedLines
           totalFrames 0)
  | None =>
      (* -Infinity: no line at all. [split] never returns the empty array
         (split_nonempty), so this branch is never taken; it stands for
         a banner of no lines and width 0. *)
      write sink_rejects ANSI.HIDE_CURSOR ;;;
      loop_finally
        (animation_loop n speed terminalWidth bannerHeight []
           terminalWidth 0)
  end.

End Endless.

(** Streams in which every escape character is followed by two more
    code units, the second of which is not ['?']: no show- or hide-cursor
    sequence starts anywhere in them, also not after more is appended. *)
Fixpoint esc_ok (stream : js_string) : bool :=
  match stream with
  | [] => true
  | c :: rest =>
      (if c =? ANSI.ESC
       then match rest with
            | _ :: x :: _ => negb (x =? 63)
            | _ => false
            end
       else true)
      && esc_ok rest
  end.

(** Strings without an escape character. *)
Definition esc_free (str : js_string) : bool :=
  forallb (fun c => negb (c =? ANSI.ESC)) str.

(** An action whose writes, taken together, are [esc_ok]. *)
Definition emits_esc_ok {A : Type} (m : IO A) : Prop :=
  forall w, exists added,
    snd (m w) = w ++ added /\ esc_ok (output_stream added) = true.

(** Strings without a surrogate code unit: every item of the iterator is
    one code unit. *)
Definition surrogate_free (str : js_string) : bool :=
  forallb (fun c => negb (is_high_surrogate c) && negb (is_low_surrogate c))
    str.

(** [a] is a prefix of [b]. *)
Definition is_prefix (a b : js_string) : Prop := exists rest, b = a ++ rest.

(** [pieces.join(sep)]. *)
Fixpoint join (sep : js_string) (pieces : list js_string) : js_string :=
  match pieces with
  | [] => []
  | [piece] => piece
  | piece :: rest => piece ++ sep ++ join sep rest
  end.

(** ** Strings of the other modules *)

(** An ASCII literal as a JavaScript string. *)
Definition js (s : String.string) : js_string :=
  map (fun a => Z.of_N (Ascii.N_of_ascii a)) (String.list_ascii_of_string s).
Arguments js s%_string.

(** A string in a condition: the empty string is falsy. *)
Definition truthy (s : js_string) : bool :=
  match s with
  | [] => false
  | _ :: _ => true
  end.

(** WhiteSpace and LineTerminator code units, what [trim] strips. *)
Definition isWhiteSpace (c : code_unit) : bool :=
  (c =? 0x9) || (c =? 0xA) || (c =? 0xB) || (c =? 0xC) || (c =? 0xD) ||
  (c =? 0x20) || (c =? 0xA0) || (c =? 0x1680) ||
  ((0x2000 <=? c) && (c <=? 0x200A)) ||
  (c =? 0x2028) || (c =? 0x2029) || (c =? 0x202F) || (c =? 0x205F) ||
  (c =? 0x3000) || (c =? 0xFEFF).

Fixpoint trimStart (s : js_string) : js_string :=
  match s with
  | [] => []
  | c :: rest => if isWhiteSpace c then trimStart rest else s
  end.

Fixpoint trimEnd (s : js_string) : js_string :=
  match s with
  | [] => []
  | c :: rest =>
      match trimEnd rest with
      | [] => if isWhiteSpace c then [] else [c]
      | kept => c :: kept
      end
  end.

Definition trim (s : js_string) : js_string := trimEnd (trimStart s).

(** A returned value, or a thrown [Error] with its message. *)
Inductive result (A : Type) : Type :=
| Returned (a : A)
| Thrown (message : String.string).
Arguments Returned {A} a.
Arguments Thrown {A} message%_string.

Record BannerResult : Type := { text : js_string }.

(** ** slack.ts *)

Module Slack.

Definition SLACK_TEXT_LIMIT : Z := 3000.

(** The text object of a section block. *)
Record SlackText : Type := {
  text_type : js_string;
  text_text : js_string;
  text_emoji : bool
}.

(** [{ type: 'text', text: line }]. *)
Record RichTextElement : Type := {
  element_type : js_string;
  element_text : js_string
}.

(** [{ type: 'rich_text_preformatted', elements: [...] }]. *)
Record RichTextPreformatted : Type := {
  preformatted_type : js_string;
  preformatted_elements : list RichTextElement
}.

(** A block: the section block of [createTextBlock], or the rich-text
    block that [toSlackRichText] casts to a block. *)
Inductive SlackBlock : Type :=
| SectionBlock (type : js_string) (text : SlackText)
| RichTextBlock (type : js_string) (elements : list RichTextPreformatted).

Definition block_type (block : SlackBlock) : js_string :=
  match block with
  | SectionBlock type _ => type
  | RichTextBlock type _ => type
  end.

Record SlackMessage : Type := { blocks : list SlackBlock }.

Definition formatLineForSlack (line : js_string) : js_string := line.

Definition createTextBlock (text : js_string) : SlackBlock :=
  SectionBlock (js "section")
    {| text_type := js "mrkdwn"; text_text := text; text_emoji := true |}.

(** One pass of the [for (const line of lines)] loop of [toSlackFormat],
    on the pair of its variables [blocks] and [currentText]. *)
Definition toSlackFormat_step (state : list SlackBlock * js_string)
  (line : js_string) : list SlackBlock * js_string :=
  let '(blocks, currentText) := state in
  let formattedLine := formatLineForSlack line in
  if Z.of_nat (length currentText) + Z.of_nat (length formattedLine) + 1
     >? SLACK_TEXT_LIMIT
  then
    ((if truthy currentText then blocks ++ [createTextBlock currentText]
      else blocks),
     formattedLine)
  else
    (blocks,
     currentText ++ (if truthy currentText then [NEWLINE] else [])
       ++ formattedLine).

Definition toSlackFormat (result : BannerResult) : SlackMessage :=
  let lines := split NEWLINE (text result) in
  let '(blocks, currentText) := fold_left toSlackFormat_step lines ([], []) in
  {| blocks := if truthy currentText
               then blocks ++ [createTextBlock currentText]
               else blocks |}.

Definition toSlackRichText (result : BannerResult) : SlackMessage :=
  let lines := split NEWLINE (text result) in
  let elements :=
    map (fun line =>
           {| preformatted_type := js "rich_text_preformatted";
              preformatted_elements :=
                [ {| element_type := js "text"; element_text := line |} ] |})
      lines in
  {| blocks := [RichTextBlock (js "rich_text") elements] |}.

(** The loop of [validateSlackMessage]; a message of this type is an
    object whose [blocks] is an array, so the first test never fires. *)
Fixpoint validate_blocks (blocks : list SlackBlock) : bool :=
  match blocks with
  | [] => true
  | block :: rest =>
      if negb (truthy (block_type block)) then false
      else validate_blocks rest
  end.

Definition validateSlackMessage (message : SlackMessage) : bool :=
  validate_blocks (blocks message).

End Slack.

(** ** themes.ts *)

Module Themes.

(** The numbers that the arithmetic of [getGitHubIntensity] can reach from
    integer arguments: an integer that a double holds exactly, an
    infinity, or NaN. *)
Inductive number : Type :=
| Finite (z : Z)
| Infinite (negative : bool)
| NaN.

(** The integer nearest to [z] that has at most 53 significant bits, ties
    to the even significand: the rounding of every operation on
    doubles. *)
Definition round53 (z : Z) : Z :=
  let a := Z.abs z in
  if a <? 2 ^ 53 then z
  else
    let e := Z.log2 a - 52 in
    let q := Z.shiftr a e in
    let r := a - Z.shiftl q e in
    let half := 2 ^ (e - 1) in
    let q' := if (half <? r) || ((r =? half) && Z.odd q) then q + 1 else q in
    Z.sgn z * Z.shiftl q' e.

(** The double of an exact integer result: rounded, and an infinity from
    2^1024 on. *)
Definition to_number (z : Z) : number :=
  let r := round53 z in
  if 2 ^ 1024 <=? Z.abs r then Infinite (r <? 0) else Finite r.

(** [a * b]. *)
Definition mul (a b : number) : number :=
  match a, b with
  | Finite x, Finite y => to_number (x * y)
  | Infinite s, Finite y | Finite y, Infinite s =>
      if y =? 0 then NaN else Infinite (xorb s (y <? 0))
  | Infinite s, Infinite t => Infinite (xorb s t)
  | NaN, _ | _, NaN => NaN
  end.

(** [a + b]. *)
Definition add (a b : number) : number :=
  match a, b with
  | Finite x, Finite y => to_number (x + y)
  | Infinite s, Finite _ | Finite _, Infinite s => Infinite s
  | Infinite s, Infinite t => if Bool.eqb s t then Infinite s else NaN
  | NaN, _ | _, NaN => NaN
  end.

(** [a % b]: exact, with the sign of the dividend. *)
Definition rem (a b : number) : number :=
  match a, b with
  | Finite x, Finite y => if y =? 0 then NaN else Finite (Z.rem x y)
  | Finite x, Infinite _ => Finite x
  | Infinite _, _ => NaN
  | NaN, _ | _, NaN => NaN
  end.

(** [a < b]; false when either side is NaN. *)
Definition lt (a b : number) : bool :=
  match a, b with
  | Finite x, Finite y => x <? y
  | Infinite s, Finite _ => s
  | Finite _, Infinite t => negb t
  | Infinite s, Infinite t => s && negb t
  | NaN, _ | _, NaN => false
  end.

(** [seed] is an optional parameter with default 0. The arguments are the
    doubles of the integers given. *)
Definition getGitHubIntensity (row col : Z) (seed : option Z) : Z :=
  let row := to_number row in
  let col := to_number col in
  let seed := match seed with Some v => to_number v | None => Finite 0 end in
  let hash :=
    rem (add (add (mul row (Finite 31)) (mul col (Finite 17))) seed)
      (Finite 100) in
  if lt hash (Finite 20) then 1
  else if lt hash (Finite 45) then 2
  else if lt hash (Finite 75) then 3
  else 4.

End Themes.

(** ** output.ts *)

Module Output.

(** [replace(/\.\./g, '')]: every match, left to right, without overlap. *)
Fixpoint remove_dot_dot (s : js_string) : js_string :=
  match s with
  | [] => []
  | c :: rest =>
      match rest with
      | d :: rest' =>
          if (c =? 46) && (d =? 46) then remove_dot_dot rest'
          else c :: remove_dot_dot rest
      | [] => [c]
      end
  end.

(** The character class of the second pattern: less-than, greater-than,
    colon, double quote, vertical bar, question mark, asterisk. *)
Definition forbidden (c : code_unit) : bool :=
  (c =? 60) || (c =? 62) || (c =? 58) || (c =? 34) || (c =? 124) ||
  (c =? 63) || (c =? 42).

(** The second [replace]: every character of that class is removed. *)
Definition remove_forbidden (s : js_string) : js_string :=
  filter (fun c => negb (forbidden c)) s.

(** [replace(/^\.+/, '')]. *)
Fixpoint remove_leading_dots (s : js_string) : js_string :=
  match s with
  | [] => []
  | c :: rest => if c =? 46 then remove_leading_dots rest else s
  end.

Definition sanitizeFilename (filename : js_string) : js_string :=
  trim (remove_leading_dots (remove_forbidden (remove_dot_dot filename))).

(** The two variables that the loop of [getUniqueFilename] assigns. *)
Record probe_state : Type := {
  filename : js_string;
  counter : Z
}.

Section UniqueFilename.

(** [fs.access(path)] resolves ([true]) or rejects ([false]); the file
    system does not change while the function runs. *)
Variable access : js_string -> bool.

(** [path.join]. *)
Variable path_join : js_string -> js_string -> js_string.

Variable dirPath : js_string.
Variable sanitizedBase : js_string.
Variable extension : js_string.

(** The [try] block of one pass: how it completes, and the variables as
    it leaves them. *)
Definition probe (st : probe_state) : result unit * probe_state :=
  if access (path_join dirPath (filename st)) then
    let st1 :=
      {| filename := sanitizedBase ++ js "-" ++ Number_toString (counter st)
                       ++ js "." ++ extension;
         counter := counter st |} in
    let st2 := {| filename := filename st1; counter := counter st1 + 1 |} in
    if counter st2 >? 1000
    then (Thrown "Too many files with same name", st2)
    else (Returned tt, st2)
  else (Thrown "ENOENT", st).

(** [while (true) { try { ... } catch { return filename; } }]. *)
Function unique_loop (st : probe_state)
  {measure (fun st => Z.to_nat (1001 - counter st)) st} : result js_string :=
  match probe st with
  | (Returned _, st') => unique_loop st'
  | (Thrown _, st') => Returned (filename st')
  end.
Proof.
  intros st r st' u Hr Hp. unfold probe in Hp.
  destruct (access (path_join dirPath (filename st))); [|discriminate].
  cbn [counter filename] in Hp.
  destruct (counter st + 1 >? 1000) eqn:E; [discriminate|].
  inversion Hp; subst. cbn [counter].
  rewrite Z.gtb_ltb in E. apply Z.ltb_ge in E. lia.
Defined.

End UniqueFilename.

Definition getUniqueFilename (access : js_string -> bool)
  (path_join : js_string -> js_string -> js_string)
  (dirPath baseName extension : js_string) : result js_string :=
  let sanitizedBase := sanitizeFilename baseName in
  unique_loop access path_join dirPath sanitizedBase extension
    {| filename := sanitizedBase ++ js "." ++ extension; counter := 1 |}.

(** A character that no pass of [sanitizeFilename] touches. *)
Definition plain (c : code_unit) : bool :=
  negb (c =? 46) && negb (forbidden c) && negb (isWhiteSpace c).

(** Whether two dots stand side by side somewhere in [s]. *)
Fixpoint has_dot_dot (s : js_string) : bool :=
  match s with
  | [] => false
  | c :: rest =>
      match rest with
      | d :: _ => ((c =? 46) && (d =? 46)) || has_dot_dot rest
      | [] => false
      end
  end.

(** The names that [getUniqueFilename] tries, in order: the plain one,
    then the numbered ones. *)
Definition candidate (sanitizedBase extension : js_string) (k : Z)
  : js_string :=
  if k =? 0 then sanitizedBase ++ js "." ++ extension
  else sanitizedBase ++ js "-" ++ Number_toString k ++ js "." ++ extension.

End Output.

(** ** emoji.ts *)

Module Emoji.

(** [replace(/^:/, '')]. *)
Definition remove_leading_colon (s : js_string) : js_string :=
  match s with
  | c :: rest => if c =? 58 then rest else s
  | [] => []
  end.

(** [replace(/:$/, '')]. *)
Fixpoint remove_trailing_colon (s : js_string) : js_string :=
  match s with
  | [] => []
  | c :: rest =>
      match rest with
      | [] => if c =? 58 then [] else [c]
      | _ :: _ => c :: remove_trailing_colon rest
      end
  end.

Definition normalizeAlias (alias : js_string) : js_string :=
  trim (remove_trailing_colon (remove_leading_colon alias)).

Section ParseEmojis.

(** [resolveEmoji], which asks the node-emoji package. *)
Variable resolveEmoji : js_string -> js_string.

Definition parseEmojis (input : js_string) : result (list js_string) :=
  if negb (truthy input) then Thrown "Emoji input is required"
  else
    let parts := filter truthy (map trim (split 44 input)) in
    if Z.of_nat (length parts) =? 0
    then Thrown "At least one emoji is required"
    else Returned (map resolveEmoji parts).

End ParseEmojis.

End Emoji.

(** ** Facts about the string iterator *)

Section Iterator.

Lemma chars_pair (c d : code_unit) (rest : js_string) :
  is_high_surrogate c && is_low_surrogate d = true ->
  chars (c :: d :: rest) = [c; d] :: chars rest.
Proof. intros H. simpl. rewrite H. reflexivity. Qed.

Lemma chars_lone (c d : code_unit) (rest : js_string) :
  is_high_surrogate c && is_low_surrogate d = false ->
  chars (c :: d :: rest) = [c] :: chars (d :: rest).
Proof. intros H. cbn [chars]. rewrite H. reflexivity. Qed.

(** Induction that follows the iterator: two code units at a time for a
    surrogate pair, one otherwise. *)
Lemma chars_ind (P : js_string -> Prop) :
  P [] ->
  (forall c, P [c]) ->
  (forall c d rest,
      is_high_surrogate c && is_low_surrogate d = true ->
      P rest -> P (c :: d :: rest)) ->
  (forall c d rest,
      is_high_surrogate c && is_low_surrogate d = false ->
      P (d :: rest) -> P (c :: d :: rest)) ->
  forall str, P str.
Proof.
  intros Hnil Hone Hpair Hlone str.
  assert (both : P str /\ forall c, P (c :: str)).
  { induction str as [|d rest [IH1 IH2]].
    - split; [exact Hnil | exact Hone].
    - split; [apply IH2 |].
      intros c.
      destruct (is_high_surrogate c && is_low_surrogate d) eqn:E.
      + apply Hpair; assumption.
      + apply Hlone; [assumption | apply IH2]. }
  exact (proj1 both).
Qed.

Lemma concat_chars (str : js_string) : concat (chars str) = str.
Proof.
  induction str as [| c | c d rest E IH | c d rest E IH] using chars_ind.
  - reflexivity.
  - reflexivity.
  - rewrite chars_pair by assumption. simpl. now rewrite IH.
  - rewrite chars_lone by assumption.
    change (concat ([c] :: chars (d :: rest))) with (c :: concat (chars (d :: rest))).
    now rewrite IH.
Qed.

End Iterator.

Lemma chars_segmented (str : js_string) : segmented (chars str).
Proof.
  induction str as [| c | c d rest E IH | c d rest E IH] using chars_ind.
  - constructor.
  - simpl. constructor; [apply andb_false_r | constructor].
  - rewrite chars_pair by assumption. now constructor.
  - rewrite chars_lone by assumption. constructor; [|assumption].
    destruct rest as [|e rest'].
    + exact E.
    + cbn [chars]. destruct (is_high_surrogate d && is_low_surrogate e); exact E.
Qed.

Lemma segmented_concat (us : list js_string) :
  segmented us -> chars (concat us) = us.
Proof.
  induction 1 as [| c us E Hus IH | c d us E Hus IH].
  - reflexivity.
  - change (concat ([c] :: us)) with (c :: concat us).
    destruct (concat us) as [|d rest] eqn:Ec.
    + simpl in IH. subst us. reflexivity.
    + rewrite chars_lone.
      * now rewrite IH.
      * destruct Hus as [| c' us' E' Hus' | c' d' us' E' Hus'];
          try discriminate; cbn in Ec; injection Ec as -> _; exact E.
  - change (concat ([c; d] :: us)) with (c :: d :: concat us).
    rewrite chars_pair by assumption. now rewrite IH.
Qed.

Lemma head_is_low_app (us vs : list js_string) :
  us <> [] -> head_is_low (us ++ vs) = head_is_low us.
Proof. destruct us; [congruence | reflexivity]. Qed.

Lemma segmented_app_l (us vs : list js_string) :
  segmented (us ++ vs) -> segmented us.
Proof.
  induction us as [|u us IH]; intros H; [constructor|].
  simpl in H. inversion H as [| c ws E Hws | c d ws E Hws]; subst.
  - constructor; [|now apply IH].
    destruct us as [|u' us']; [apply andb_false_r|].
    rewrite head_is_low_app in E by discriminate. exact E.
  - constructor; [assumption | now apply IH].
Qed.

Lemma segmented_app_r (us vs : list js_string) :
  segmented (us ++ vs) -> segmented vs.
Proof.
  induction us as [|u us IH]; intros H; [exact H|].
  simpl in H. inversion H; subst; now apply IH.
Qed.

(** A contiguous run of the items of a string is itself what the iterator
    yields on the run's concatenation. *)
Lemma chars_concat_run (str : js_string) (pre run post : list js_string) :
  chars str = pre ++ run ++ post -> chars (concat run) = run.
Proof.
  intros H. apply segmented_concat.
  pose proof (chars_segmented str) as S. rewrite H in S.
  apply segmented_app_r in S. now apply segmented_app_l in S.
Qed.

Lemma segmented_item (us : list js_string) (u : js_string) :
  segmented us -> In u us -> chars u = [u].
Proof.
  induction 1 as [| c us E Hus IH | c d us E Hus IH]; intros Hin.
  - destruct Hin.
  - destruct Hin as [<- | Hin]; [reflexivity | now apply IH].
  - destruct Hin as [<- | Hin]; [|now apply IH].
    simpl. now rewrite E.
Qed.

(** ** Facts about widths *)

Lemma step_width (width : Z) (char : js_string) :
  getVisibleWidth_step width char = width + getVisibleWidth_step 0 char.
Proof.
  unfold getVisibleWidth_step.
  destruct (or_zero (codePointAt0 char) >? 0x1F300); lia.
Qed.

Lemma step_one_or_two (char : js_string) :
  getVisibleWidth_step 0 char = 1 \/ getVisibleWidth_step 0 char = 2.
Proof.
  unfold getVisibleWidth_step.
  destruct (or_zero (codePointAt0 char) >? 0x1F300); auto.
Qed.

Lemma fold_step_shift (us : list js_string) (width : Z) :
  fold_left getVisibleWidth_step us width
  = width + fold_left getVisibleWidth_step us 0.
Proof.
  revert width. induction us as [|u us IH]; intros width; simpl.
  - lia.
  - rewrite IH, (IH (getVisibleWidth_step 0 u)), (step_width width u). lia.
Qed.

Lemma fold_step_lower (us : list js_string) :
  Z.of_nat (length us) <= fold_left getVisibleWidth_step us 0.
Proof.
  induction us as [|u us IH].
  - simpl. lia.
  - cbn [fold_left length]. rewrite fold_step_shift.
    destruct (step_one_or_two u); lia.
Qed.

Lemma fold_step_upper (us : list js_string) :
  fold_left getVisibleWidth_step us 0 <= 2 * Z.of_nat (length us).
Proof.
  induction us as [|u us IH].
  - simpl. lia.
  - cbn [fold_left length]. rewrite fold_step_shift.
    destruct (step_one_or_two u); lia.
Qed.

Lemma getVisibleWidth_nonneg (str : js_string) : 0 <= getVisibleWidth str.
Proof.
  unfold getVisibleWidth. pose proof (fold_step_lower (chars str)). lia.
Qed.

Lemma total_width_nonneg (us : list js_string) : 0 <= total_width us.
Proof.
  induction us as [|u us IH]; simpl; [lia|].
  pose proof (getVisibleWidth_nonneg u). lia.
Qed.

Lemma total_width_app (us vs : list js_string) :
  total_width (us ++ vs) = total_width us + total_width vs.
Proof. induction us as [|u us IH]; simpl; lia. Qed.

(** An item of the iterator is measured by one step of the width loop. *)
Lemma item_width (u : js_string) :
  chars u = [u] -> getVisibleWidth u = getVisibleWidth_step 0 u.
Proof. intros H. unfold getVisibleWidth. now rewrite H. Qed.

Lemma item_width_cases (u : js_string) :
  chars u = [u] -> getVisibleWidth u = 1 \/ getVisibleWidth u = 2.
Proof. intros H. rewrite (item_width u H). apply step_one_or_two. Qed.

Lemma segmented_fold_width (us : list js_string) :
  segmented us -> fold_left getVisibleWidth_step us 0 = total_width us.
Proof.
  intros S. induction us as [|u us IH]; [reflexivity|].
  cbn [fold_left total_width fold_right]. rewrite fold_step_shift.
  rewrite <- (item_width u) by (eapply segmented_item; [exact S | now left]).
  rewrite IH; [reflexivity|].
  now apply (segmented_app_r [u] us).
Qed.

Lemma getVisibleWidth_total (str : js_string) :
  getVisibleWidth str = total_width (chars str).
Proof. apply segmented_fold_width, chars_segmented. Qed.

Lemma segmented_positive (us : list js_string) (u : js_string) :
  segmented us -> In u us -> 1 <= getVisibleWidth u <= 2.
Proof.
  intros S Hin.
  destruct (item_width_cases u (segmented_item us u S Hin)); lia.
Qed.

Lemma skip_before_past (start pos : Z) (us : list js_string) :
  start < pos -> skip_before start pos us = us.
Proof.
  intros H. destruct us as [|u rest]; [reflexivity|].
  simpl. pose proof (getVisibleWidth_nonneg u).
  destruct (pos + getVisibleWidth u <=? start) eqn:E; [|reflexivity].
  apply Z.leb_le in E. lia.
Qed.

Lemma visibleSubstring_loop_spec (us : list js_string) (start length : Z) :
  forall currentPos result resultWidth,
    visibleSubstring_loop us start length currentPos result resultWidth
    = result ++ concat (collect_until length resultWidth
                          (skip_before start currentPos us)).
Proof.
  induction us as [|u rest IH]; intros currentPos result resultWidth.
  - simpl. now rewrite app_nil_r.
  - cbn [visibleSubstring_loop skip_before].
    destruct (currentPos + getVisibleWidth u <=? start) eqn:Eskip.
    + apply IH.
    + cbn [collect_until].
      destruct (resultWidth >=? length) eqn:Efull.
      * simpl. now rewrite app_nil_r.
      * rewrite IH. apply Z.leb_gt in Eskip.
        rewrite skip_before_past by lia.
        cbn [concat]. now rewrite app_assoc.
Qed.

Lemma visibleSubstring_refines (str : js_string) (start length : Z) :
  visibleSubstring str start length = visibleSubstring_spec str start length.
Proof.
  unfold visibleSubstring, visibleSubstring_spec.
  now rewrite visibleSubstring_loop_spec.
Qed.

(** What the two phases do, said without recursion. *)
Lemma skip_before_split (start : Z) (us : list js_string) (pos : Z) :
  exists skipped,
    us = skipped ++ skip_before start pos us /\
    (skipped <> [] -> pos + total_width skipped <= start) /\
    (forall u tl, skip_before start pos us = u :: tl ->
                  start < pos + total_width skipped + getVisibleWidth u).
Proof.
  revert pos. induction us as [|u rest IH]; intros pos.
  - exists []. simpl. repeat split; congruence.
  - cbn [skip_before].
    destruct (pos + getVisibleWidth u <=? start) eqn:E.
    + destruct (IH (pos + getVisibleWidth u)) as (sk & Heq & Hle & Hnext).
      exists (u :: sk). cbn [total_width fold_right]. fold (total_width sk).
      repeat split.
      * simpl. now rewrite <- Heq.
      * intros _. destruct sk as [|u' sk'].
        -- simpl. apply Z.leb_le in E. lia.
        -- assert (u' :: sk' <> []) as Hne by discriminate.
           specialize (Hle Hne). lia.
      * intros u' tl Htl. specialize (Hnext u' tl Htl). lia.
    + exists []. simpl. repeat split; try congruence.
      intros u' tl Htl. injection Htl as <- _. apply Z.leb_gt in E. lia.
Qed.

Lemma collect_until_split (length : Z) (us : list js_string) (acc : Z) :
  exists rest,
    us = collect_until length acc us ++ rest /\
    (forall p q, collect_until length acc us = p ++ q -> q <> [] ->
                 acc + total_width p < length) /\
    (rest <> [] -> length <= acc + total_width (collect_until length acc us)).
Proof.
  revert acc. induction us as [|u tl IH]; intros acc.
  - exists []. simpl. repeat split; try congruence.
    intros p q H Hq. destruct p; destruct q; simpl in H; congruence.
  - cbn [collect_until]. destruct (acc >=? length) eqn:E.
    + exists (u :: tl). simpl. repeat split.
      * intros p q H Hq. destruct p; destruct q; simpl in H; congruence.
      * intros _. apply Z.geb_le in E. lia.
    + destruct (IH (acc + getVisibleWidth u)) as (rest & Heq & Hpre & Hfull).
      exists rest. repeat split.
      * simpl. now rewrite <- Heq.
      * intros p q H Hq. destruct p as [|u' p'].
        -- simpl. rewrite Z.geb_leb in E. apply Z.leb_gt in E. lia.
        -- simpl in H. injection H as <- H.
           specialize (Hpre p' q H Hq).
           cbn [total_width fold_right]. fold (total_width p'). lia.
      * intros Hne. specialize (Hfull Hne).
        cbn [total_width fold_right].
        fold (total_width (collect_until length (acc + getVisibleWidth u) tl)).
        lia.
Qed.

(** ** Widths across a concatenation *)

Lemma chars_not_high (c : code_unit) (rest : js_string) :
  is_high_surrogate c = false -> chars (c :: rest) = [c] :: chars rest.
Proof.
  intros H. destruct rest as [|d rest']; [reflexivity|].
  apply chars_lone. now rewrite H.
Qed.

(** The iterator splits a concatenation at the seam unless the right part
    starts with a low surrogate. *)
Lemma chars_app (s t : js_string) :
  head_low_unit t = false -> chars (s ++ t) = chars s ++ chars t.
Proof.
  intros Ht.
  induction s as [| c | c d rest E IH | c d rest E IH] using chars_ind.
  - reflexivity.
  - destruct t as [|d t']; [reflexivity|].
    simpl in Ht. change ([c] ++ d :: t') with (c :: d :: t').
    rewrite chars_lone by (rewrite Ht; apply andb_false_r). reflexivity.
  - change ((c :: d :: rest) ++ t) with (c :: d :: (rest ++ t)).
    rewrite !chars_pair by assumption. now rewrite IH.
  - change ((c :: d :: rest) ++ t) with (c :: (d :: rest) ++ t).
    change ((d :: rest) ++ t) with (d :: (rest ++ t)) at 1.
    rewrite !chars_lone by assumption.
    change (d :: rest ++ t) with ((d :: rest) ++ t). now rewrite IH.
Qed.

Lemma getVisibleWidth_app (s t : js_string) :
  head_low_unit t = false ->
  getVisibleWidth (s ++ t) = getVisibleWidth s + getVisibleWidth t.
Proof.
  intros Ht. unfold getVisibleWidth.
  rewrite chars_app by assumption.
  rewrite fold_left_app. apply fold_step_shift.
Qed.

Lemma getVisibleWidth_spaces (n : nat) :
  getVisibleWidth (repeat_nat SPACE n) = Z.of_nat n.
Proof.
  induction n as [|n IH]; [reflexivity|].
  unfold getVisibleWidth in *.
  cbn [repeat_nat SPACE app]. fold SPACE.
  rewrite chars_not_high by reflexivity.
  cbn [fold_left]. rewrite fold_step_shift, IH.
  change (getVisibleWidth_step 0 [32]) with 1. lia.
Qed.

Lemma head_low_unit_spaces (n : nat) : head_low_unit (repeat_nat SPACE n) = false.
Proof. destruct n; reflexivity. Qed.

(** ** The padding helper *)

Lemma padToWidth_value (str : js_string) (targetWidth : Z)
  (padChar : option js_string) :
  padToWidth str targetWidth padChar
  = Normal (if getVisibleWidth str >=? targetWidth then str
            else str ++ repeat_nat (pad_of padChar)
                          (Z.to_nat (targetWidth - getVisibleWidth str))).
Proof.
  unfold padToWidth, repeat, pad_of.
  destruct (getVisibleWidth str >=? targetWidth) eqn:E; [reflexivity|].
  rewrite Z.geb_leb in E. apply Z.leb_gt in E.
  destruct (targetWidth - getVisibleWidth str <? 0) eqn:E2.
  - apply Z.ltb_lt in E2. lia.
  - reflexivity.
Qed.

Lemma padToWidth_default_width (str : js_string) (targetWidth : Z) :
  forall padded, padToWidth str targetWidth None = Normal padded ->
    getVisibleWidth padded = Z.max (getVisibleWidth str) targetWidth.
Proof.
  intros padded H. rewrite padToWidth_value in H. injection H as <-.
  destruct (getVisibleWidth str >=? targetWidth) eqn:E.
  - apply Z.geb_le in E. lia.
  - rewrite Z.geb_leb in E. apply Z.leb_gt in E.
    rewrite getVisibleWidth_app by apply head_low_unit_spaces.
    simpl pad_of. rewrite getVisibleWidth_spaces. lia.
Qed.

Lemma skip_before_all (start : Z) (us : list js_string) (pos : Z) :
  pos + total_width us <= start -> skip_before start pos us = [].
Proof.
  revert pos. induction us as [|u rest IH]; intros pos H; [reflexivity|].
  cbn [total_width fold_right] in H. fold (total_width rest) in H.
  pose proof (total_width_nonneg rest). cbn [skip_before].
  destruct (pos + getVisibleWidth u <=? start) eqn:E.
  - apply IH. lia.
  - apply Z.leb_gt in E. lia.
Qed.

Lemma collect_until_full (length acc : Z) (us : list js_string) :
  length <= acc -> collect_until length acc us = [].
Proof.
  intros H. destruct us as [|u rest]; [reflexivity|].
  cbn [collect_until]. destruct (acc >=? length) eqn:E; [reflexivity|].
  rewrite Z.geb_leb in E. apply Z.leb_gt in E. lia.
Qed.

Lemma visibleSubstring_nothing (s : js_string) (start length : Z) :
  length <= 0 -> visibleSubstring s start length = [].
Proof.
  intros H. rewrite visibleSubstring_refines.
  unfold visibleSubstring_spec. now rewrite collect_until_full by lia.
Qed.

Lemma getVisibleWidth_le_length (str : js_string) :
  sixteen_bit str -> getVisibleWidth str <= Z.of_nat (length str).
Proof.
  unfold getVisibleWidth.
  induction str as [| c | c d rest E IH | c d rest E IH] using chars_ind;
    intros Hs.
  - simpl. lia.
  - inversion Hs as [|? ? Hc _]; subst.
    cbn [chars fold_left]. unfold getVisibleWidth_step, codePointAt0.
    assert (Hc' : or_zero (if is_high_surrogate c then Some c else Some c) = c)
      by (destruct (is_high_surrogate c); reflexivity).
    rewrite Hc'. destruct (c >? 127744) eqn:E; simpl length; lia.
  - inversion Hs as [|? ? _ Hs']; subst. inversion Hs' as [|? ? _ Hs'']; subst.
    rewrite chars_pair by assumption. cbn [fold_left length].
    rewrite fold_step_shift. specialize (IH Hs'').
    destruct (step_one_or_two [c; d]); lia.
  - inversion Hs as [|? ? Hc Hs']; subst.
    rewrite chars_lone by assumption. cbn [fold_left].
    rewrite fold_step_shift. specialize (IH Hs').
    assert (getVisibleWidth_step 0 [c] = 1) as ->.
    { unfold getVisibleWidth_step, codePointAt0.
      assert (Hc' : or_zero (if is_high_surrogate c then Some c else Some c) = c)
        by (destruct (is_high_surrogate c); reflexivity).
      rewrite Hc'. destruct (c >? 127744) eqn:E'; lia. }
    change (length (c :: d :: rest)) with (S (length (d :: rest))). lia.
Qed.

(** ** Claims on the width-aware text engine *)

(** C6. Width monotonicity: every item of the string adds 1 or 2 to the
    running width, so the visual width of a string is at least its number
    of items (and at most twice that number). *)
Theorem width_monotonicity (s : js_string) :
  (forall width char,
      getVisibleWidth_step width char = width + 1 \/
      getVisibleWidth_step width char = width + 2) /\
  Z.of_nat (length (chars s)) <= getVisibleWidth s /\
  getVisibleWidth s <= 2 * Z.of_nat (length (chars s)).
Proof.
  split; [|split].
  - intros width char. rewrite step_width.
    destruct (step_one_or_two char) as [-> | ->]; auto.
  - apply fold_step_lower.
  - apply fold_step_upper.
Qed.

(** C7. padToWidth returns the string unchanged when it is already at least
    [target] wide, and otherwise appends the pad character exactly
    [target - width] times; in both cases the string is a prefix of the
    result: nothing is cut off, and nothing is thrown. *)
Theorem padToWidth_contract (s : js_string) (target : Z)
  (padChar : option js_string) :
  (target <= getVisibleWidth s -> padToWidth s target padChar = Normal s) /\
  (getVisibleWidth s < target ->
   padToWidth s target padChar
   = Normal (s ++ repeat_nat (pad_of padChar)
                    (Z.to_nat (target - getVisibleWidth s)))) /\
  (exists suffix, padToWidth s target padChar = Normal (s ++ suffix)).
Proof.
  rewrite padToWidth_value.
  destruct (getVisibleWidth s >=? target) eqn:E.
  - apply Z.geb_le in E. repeat split; try lia; auto.
    exists []. now rewrite app_nil_r.
  - rewrite Z.geb_leb in E. apply Z.leb_gt in E. repeat split; try lia; auto.
    eexists. reflexivity.
Qed.

Lemma padToWidth_contract_witness :
  padToWidth [0xD83D; 0xDD25] 2 None = Normal [0xD83D; 0xDD25] /\
  padToWidth [0xD83D; 0xDD25] 5 (Some [46])
  = Normal [0xD83D; 0xDD25; 46; 46; 46].
Proof.
  split.
  - apply (proj1 (padToWidth_contract [0xD83D; 0xDD25] 2 None)).
    vm_compute. discriminate.
  - apply (proj1 (proj2 (padToWidth_contract [0xD83D; 0xDD25] 5 (Some [46])))).
    reflexivity.
Defined.

(** C5. Pad idempotence: for a target [n] that is at least the width of
    [s], padding to [n] succeeds, and padding the result to [n] again gives
    that result back. *)
Theorem pad_idempotence (s : js_string) (n : Z) :
  getVisibleWidth s <= n ->
  exists padded,
    padToWidth s n None = Normal padded /\
    padToWidth padded n None = Normal padded /\
    cbind (padToWidth s n None) (fun r => padToWidth r n None)
    = padToWidth s n None.
Proof.
  intros _.
  destruct (padToWidth s n None) as [padded|e] eqn:E.
  2: { rewrite padToWidth_value in E. discriminate. }
  exists padded.
  assert (H : padToWidth padded n None = Normal padded).
  { pose proof (padToWidth_default_width s n padded E) as W.
    rewrite padToWidth_value.
    destruct (getVisibleWidth padded >=? n) eqn:G; [reflexivity|].
    rewrite Z.geb_leb in G. apply Z.leb_gt in G. lia. }
  repeat split; assumption.
Qed.

Lemma pad_idempotence_witness :
  exists padded,
    padToWidth [104; 105] 5 None = Normal padded /\
    padToWidth padded 5 None = Normal padded /\
    cbind (padToWidth [104; 105] 5 None) (fun r => padToWidth r 5 None)
    = padToWidth [104; 105] 5 None.
Proof. apply (pad_idempotence [104; 105] 5). vm_compute. discriminate. Defined.

(** C8. Edge cases: the empty string has width 0; padding it yields pad
    characters only; its visible substring is empty; a visible substring
    that starts at or beyond the end of the string (its visual width, and so
    also its length in 16-bit code units) is empty; and a visible substring
    of length 0 is empty wherever it starts. *)
Theorem text_engine_edge_cases :
  getVisibleWidth [] = 0 /\
  (forall target padChar,
      padToWidth [] target padChar
      = Normal (repeat_nat (pad_of padChar) (Z.to_nat target))) /\
  (forall start length, visibleSubstring [] start length = []) /\
  (forall s start length,
      getVisibleWidth s <= start -> visibleSubstring s start length = []) /\
  (forall s start length,
      sixteen_bit s -> Z.of_nat (List.length s) <= start ->
      visibleSubstring s start length = []) /\
  (forall s start, visibleSubstring s start 0 = []).
Proof.
  assert (beyond : forall s start length,
             getVisibleWidth s <= start -> visibleSubstring s start length = []).
  { intros s start length H.
    rewrite visibleSubstring_refines. unfold visibleSubstring_spec.
    rewrite skip_before_all; [reflexivity|].
    rewrite <- getVisibleWidth_total. lia. }
  repeat split.
  - intros target padChar. rewrite padToWidth_value.
    change (getVisibleWidth []) with 0.
    destruct (0 >=? target) eqn:E.
    + apply Z.geb_le in E. now replace (Z.to_nat target) with 0%nat by lia.
    + now rewrite Z.sub_0_r.
  - exact beyond.
  - intros s start length H16 Hlen. apply beyond.
    pose proof (getVisibleWidth_le_length s H16). lia.
  - intros s start. apply visibleSubstring_nothing. lia.
Qed.

Lemma text_engine_edge_cases_witness :
  visibleSubstring [0xD83D; 0xDD25; 97] 3 4 = [] /\
  visibleSubstring [0xD83D; 0xDD25; 97] 3 1 = [].
Proof.
  destruct text_engine_edge_cases as (_ & _ & _ & Hwidth & Hlength & _).
  split.
  - apply Hwidth. vm_compute. discriminate.
  - apply Hlength.
    + repeat constructor; lia.
    + vm_compute. discriminate.
Defined.

(** C9, as the code has it. Neither helper checks the sign of its width
    argument and neither throws: a negative target leaves the string
    unpadded, a negative length yields the empty string, and padToWidth
    completes normally on every input. *)
Theorem negative_width_not_raised :
  (forall s target padChar,
      target < 0 -> padToWidth s target padChar = Normal s) /\
  (forall s start length,
      length < 0 -> visibleSubstring s start length = []) /\
  (forall s target padChar, ~ raises (padToWidth s target padChar)).
Proof.
  repeat split.
  - intros s target padChar H. rewrite padToWidth_value.
    pose proof (getVisibleWidth_nonneg s).
    destruct (getVisibleWidth s >=? target) eqn:E; [reflexivity | lia].
  - intros s start length H. apply visibleSubstring_nothing. lia.
  - intros s target padChar [e He].
    rewrite padToWidth_value in He. discriminate.
Qed.

Lemma negative_width_not_raised_witness :
  padToWidth [97; 98] (-3) None = Normal [97; 98] /\
  visibleSubstring [97; 98] 0 (-3) = [].
Proof.
  destruct negative_width_not_raised as (Hpad & Hsub & _).
  split; [apply Hpad | apply Hsub]; lia.
Defined.

(** C9, as stated, fails: on the negative width argument -1 padToWidth
    returns its input and visibleSubstring returns the empty string; no
    error is raised. *)
Lemma negative_width_counterexample :
  ~ raises (padToWidth [97; 98] (-1) None) /\
  padToWidth [97; 98] (-1) None = Normal [97; 98] /\
  visibleSubstring [97; 98] 0 (-1) = [].
Proof.
  repeat split. intros [e H]. vm_compute in H. discriminate.
Qed.

(** ** visibleSubstring: the collected run *)

Lemma visibleSubstring_run (s : js_string) (start length : Z) :
  exists skipped rest,
    let collected :=
      collect_until length 0 (skip_before start 0 (chars s)) in
    chars s = skipped ++ collected ++ rest /\
    skip_before start 0 (chars s) = collected ++ rest /\
    visibleSubstring s start length = concat collected /\
    chars (visibleSubstring s start length) = collected.
Proof.
  destruct (skip_before_split start (chars s) 0) as (skipped & Hs & _ & _).
  destruct (collect_until_split length (skip_before start 0 (chars s)) 0)
    as (rest & Hc & _ & _).
  exists skipped, rest. cbv zeta.
  assert (Hall : chars s
                 = skipped ++ collect_until length 0
                                (skip_before start 0 (chars s)) ++ rest)
    by (rewrite <- Hc; exact Hs).
  repeat split.
  - exact Hall.
  - exact Hc.
  - apply visibleSubstring_refines.
  - rewrite visibleSubstring_refines. unfold visibleSubstring_spec.
    eapply chars_concat_run. exact Hall.
Qed.

Lemma skip_before_keep (start pos : Z) (us : list js_string) :
  (forall u tl, us = u :: tl -> start < pos + getVisibleWidth u) ->
  skip_before start pos us = us.
Proof.
  intros H. destruct us as [|u tl]; [reflexivity|].
  cbn [skip_before]. specialize (H u tl eq_refl).
  destruct (pos + getVisibleWidth u <=? start) eqn:E; [lia | reflexivity].
Qed.

Lemma skip_before_exact (start pos : Z) (p q : list js_string) :
  pos + total_width p = start ->
  (forall u, In u q -> 1 <= getVisibleWidth u) ->
  skip_before start pos (p ++ q) = q.
Proof.
  revert pos. induction p as [|u p IH]; intros pos Hp Hq.
  - simpl in *. apply skip_before_keep. intros u tl ->.
    specialize (Hq u (or_introl eq_refl)). lia.
  - cbn [total_width fold_right] in Hp. fold (total_width p) in Hp.
    pose proof (total_width_nonneg p).
    cbn [app skip_before].
    destruct (pos + getVisibleWidth u <=? start) eqn:E; [|lia].
    apply IH; [lia | assumption].
Qed.

Lemma collect_until_exact (length acc : Z) (p q : list js_string) :
  acc + total_width p = length ->
  (forall u, In u p -> 1 <= getVisibleWidth u) ->
  collect_until length acc (p ++ q) = p.
Proof.
  revert acc. induction p as [|u p IH]; intros acc Hp Hpos.
  - simpl in *. apply collect_until_full. lia.
  - cbn [total_width fold_right] in Hp. fold (total_width p) in Hp.
    pose proof (total_width_nonneg p).
    pose proof (Hpos u (or_introl eq_refl)).
    cbn [app collect_until].
    destruct (acc >=? length) eqn:E; [lia|].
    f_equal. apply IH; [lia|]. intros v Hv. apply Hpos. now right.
Qed.

Lemma collect_until_bound (length : Z) (us : list js_string) (acc : Z) :
  (forall u, In u us -> getVisibleWidth u <= 2) ->
  acc <= length + 1 ->
  acc + total_width (collect_until length acc us) <= length + 1.
Proof.
  revert acc. induction us as [|u rest IH]; intros acc Hw Hacc.
  - simpl. lia.
  - cbn [collect_until]. destruct (acc >=? length) eqn:E.
    + simpl. lia.
    + cbn [total_width fold_right].
      fold (total_width (collect_until length (acc + getVisibleWidth u) rest)).
      pose proof (Hw u (or_introl eq_refl)).
      assert (acc + getVisibleWidth u <= length + 1) as Hnext by lia.
      specialize (IH (acc + getVisibleWidth u)
                     (fun v Hv => Hw v (or_intror Hv)) Hnext).
      lia.
Qed.

(** C1, as the code has it. visibleSubstring walks the items of the
    string iterator in order, which are the code points of the string (a
    surrogate pair is one item, a lone surrogate an item of its own): the
    items whose cumulative width ends at or before [start] are skipped,
    the following items are collected until the collected width reaches
    [length] (or the items run out), and the result is the collected run
    verbatim, made of whole items: no code point is split.  Graphemes of
    several code points are not kept whole. *)
Theorem visibleSubstring_skip_collect (s : js_string) (start length : Z) :
  0 <= start -> 0 <= length ->
  exists skipped collected rest,
    chars s = skipped ++ collected ++ rest /\
    visibleSubstring s start length = concat collected /\
    chars (visibleSubstring s start length) = collected /\
    total_width skipped <= start /\
    (forall u tl, collected ++ rest = u :: tl ->
                  start < total_width skipped + getVisibleWidth u) /\
    (forall p q, collected = p ++ q -> q <> [] -> total_width p < length) /\
    (rest <> [] -> length <= total_width collected) /\
    segmented collected /\
    visibleSubstring s start length = visibleSubstring_spec s start length.
Proof.
  intros Hstart Hlength.
  destruct (skip_before_split start (chars s) 0) as (skipped & Hs & Hle & Hnext).
  destruct (collect_until_split length (skip_before start 0 (chars s)) 0)
    as (rest & Hc & Hpre & Hfull).
  exists skipped, (collect_until length 0 (skip_before start 0 (chars s))), rest.
  assert (Hall : chars s
                 = skipped ++ collect_until length 0
                                (skip_before start 0 (chars s)) ++ rest)
    by (rewrite <- Hc; exact Hs).
  repeat split.
  - exact Hall.
  - apply visibleSubstring_refines.
  - rewrite visibleSubstring_refines. unfold visibleSubstring_spec.
    eapply chars_concat_run. exact Hall.
  - destruct skipped as [|u sk]; [simpl; lia|].
    assert (u :: sk <> []) as Hne by discriminate.
    specialize (Hle Hne). lia.
  - intros u tl Hut. rewrite <- Hc in Hut. specialize (Hnext u tl Hut). lia.
  - intros p q Hpq Hq. specialize (Hpre p q Hpq Hq). lia.
  - intros Hrest. specialize (Hfull Hrest). lia.
  - pose proof (chars_segmented s) as S. rewrite Hall in S.
    apply segmented_app_r in S. now apply segmented_app_l in S.
  - apply visibleSubstring_refines.
Qed.

Lemma visibleSubstring_skip_collect_witness :
  exists skipped collected rest,
    chars [0xD83D; 0xDD25; 0xD83D; 0xDD25; 0xD83D; 0xDD25]
    = skipped ++ collected ++ rest /\
    visibleSubstring [0xD83D; 0xDD25; 0xD83D; 0xDD25; 0xD83D; 0xDD25] 2 2
    = concat collected /\
    collected = [[0xD83D; 0xDD25]].
Proof.
  destruct (visibleSubstring_skip_collect
              [0xD83D; 0xDD25; 0xD83D; 0xDD25; 0xD83D; 0xDD25] 2 2)
    as (skipped & collected & rest & Hall & Hres & Hitems & _); try lia.
  exists skipped, collected, rest. repeat split; try assumption.
  rewrite <- Hitems. reflexivity.
Defined.

(** C1, as stated, fails in its last clause: the string U+2764 U+FE0F, the
    [heart] of the alias table, is one grapheme of two code points, and
    the substring of width 1 from column 0 is U+2764 alone, which is no
    run of whole graphemes of the string. *)
Lemma grapheme_split_counterexample :
  graphemes [0x2764; 0xFE0F] = [[0x2764; 0xFE0F]] /\
  visibleSubstring [0x2764; 0xFE0F] 0 1 = [0x2764] /\
  ~ whole_graphemes [0x2764; 0xFE0F] (visibleSubstring [0x2764; 0xFE0F] 0 1).
Proof.
  split; [reflexivity|]. split; [reflexivity|].
  intros (before & run & after & Hall & Hres).
  change (graphemes [0x2764; 0xFE0F]) with [[0x2764; 0xFE0F]] in Hall.
  change (visibleSubstring [0x2764; 0xFE0F] 0 1) with [0x2764] in Hres.
  destruct before as [|b before].
  - destruct run as [|r run]; [discriminate|].
    cbn [app] in Hall. injection Hall as <- Hrun.
    destruct run; discriminate.
  - cbn [app] in Hall. injection Hall as _ Hrest.
    destruct before; [|discriminate].
    destruct run; [discriminate | discriminate].
Qed.

Lemma item_boundary_split (us : list js_string) (pos target : Z) :
  item_boundary us pos target = true ->
  exists p q, us = p ++ q /\ pos + total_width p = target.
Proof.
  revert pos. induction us as [|u rest IH]; intros pos H.
  - simpl in H. rewrite orb_false_r in H. apply Z.eqb_eq in H.
    exists [], []. simpl. split; [reflexivity | lia].
  - cbn [item_boundary] in H. apply orb_true_iff in H.
    destruct H as [H | H].
    + apply Z.eqb_eq in H. exists [], (u :: rest). simpl.
      split; [reflexivity | lia].
    + destruct (IH _ H) as (p & q & -> & Hp).
      exists (u :: p), q. cbn [total_width fold_right]. fold (total_width p).
      split; [reflexivity | lia].
Qed.

(** C4. Substring composition: when some run of leading items of [s] is
    exactly [start] columns wide (no item straddles column [start]), the
    part before [start] followed by the part from [start] on is [s]. *)
Theorem substring_composition (s : js_string) (start : Z) :
  0 <= start <= getVisibleWidth s ->
  item_boundary (chars s) 0 start = true ->
  visibleSubstring s 0 start
    ++ visibleSubstring s start (getVisibleWidth s - start)
  = s.
Proof.
  intros Hrange Hb.
  destruct (item_boundary_split (chars s) 0 start Hb) as (p & q & Hpq & Hp).
  pose proof (chars_segmented s) as S.
  assert (Hpos : forall u, In u (chars s) -> 1 <= getVisibleWidth u)
    by (intros u Hu; apply (segmented_positive (chars s) u S Hu)).
  assert (Hposp : forall u, In u p -> 1 <= getVisibleWidth u)
    by (intros u Hu; apply Hpos; rewrite Hpq; apply in_or_app; now left).
  assert (Hposq : forall u, In u q -> 1 <= getVisibleWidth u)
    by (intros u Hu; apply Hpos; rewrite Hpq; apply in_or_app; now right).
  assert (Hw : getVisibleWidth s = total_width p + total_width q)
    by (rewrite getVisibleWidth_total, Hpq; apply total_width_app).
  rewrite !visibleSubstring_refines. unfold visibleSubstring_spec.
  rewrite (skip_before_keep 0 0 (chars s)).
  2: { intros u tl Hu. specialize (Hpos u). rewrite Hu in Hpos.
       specialize (Hpos (or_introl eq_refl)). lia. }
  rewrite Hpq.
  rewrite (collect_until_exact start 0 p q) by (assumption || lia).
  rewrite (skip_before_exact start 0 p q) by (assumption || lia).
  rewrite <- (app_nil_r q) at 1.
  rewrite (collect_until_exact _ 0 q []) by (assumption || lia).
  rewrite <- concat_app.
  transitivity (concat (chars s)); [now rewrite Hpq | apply concat_chars].
Qed.

Lemma substring_composition_witness :
  visibleSubstring [97; 0xD83D; 0xDD25; 98] 0 3
    ++ visibleSubstring [97; 0xD83D; 0xDD25; 98] 3
         (getVisibleWidth [97; 0xD83D; 0xDD25; 98] - 3)
  = [97; 0xD83D; 0xDD25; 98].
Proof.
  apply (substring_composition [97; 0xD83D; 0xDD25; 98] 3).
  - vm_compute. split; discriminate.
  - reflexivity.
Defined.

(** C10. The collected run is at most one column wider than asked for, and
    it is exactly one column wider precisely when its last item is two
    columns wide and the items before it fill all but one column of
    [length]. *)
Theorem visibleSubstring_width_bound (s : js_string) (start length : Z) :
  0 <= start -> 0 <= length ->
  getVisibleWidth (visibleSubstring s start length) <= length + 1 /\
  (getVisibleWidth (visibleSubstring s start length) = length + 1 <->
   exists init last,
     chars (visibleSubstring s start length) = init ++ [last] /\
     getVisibleWidth last = 2 /\
     total_width init = length - 1).
Proof.
  intros Hstart Hlength.
  destruct (visibleSubstring_run s start length)
    as (skipped & rest & Hall & Hkept & Hres & Hitems).
  cbv zeta in *.
  set (kept := skip_before start 0 (chars s)) in *.
  set (collected := collect_until length 0 kept) in *.
  pose proof (chars_segmented s) as S.
  assert (Skept : segmented kept).
  { rewrite Hall in S. apply segmented_app_r in S. now rewrite Hkept. }
  assert (Hw : getVisibleWidth (visibleSubstring s start length)
               = total_width collected)
    by (rewrite getVisibleWidth_total, Hitems; reflexivity).
  assert (Hbound : total_width collected <= length + 1).
  { pose proof (collect_until_bound length kept 0) as B. simpl in B.
    apply B; [|lia]. intros u Hu.
    apply (segmented_positive kept u Skept Hu). }
  split; [lia|]. rewrite Hw, Hitems. split.
  - intros Heq.
    destruct (exists_last (l := collected)) as (init & last & Hlast).
    { intros Hnil. rewrite Hnil in Heq. simpl in Heq. lia. }
    exists init, last.
    destruct (collect_until_split length kept 0) as (rest' & _ & Hpre & _).
    fold collected in Hpre.
    assert (Hinit : total_width init < length).
    { specialize (Hpre init [last] Hlast). simpl in Hpre.
      apply Hpre. discriminate. }
    assert (Hlw : 1 <= getVisibleWidth last <= 2).
    { apply (segmented_positive kept last Skept).
      rewrite Hkept, Hlast. apply in_or_app. left.
      apply in_or_app. right. now left. }
    rewrite Hlast, total_width_app in Heq. simpl in Heq.
    repeat split; [assumption | lia | lia].
  - intros (init & last & Hlast & Hlw & Hinit).
    rewrite Hlast, total_width_app. simpl. lia.
Qed.

Lemma visibleSubstring_width_bound_witness :
  getVisibleWidth (visibleSubstring [97; 0xD83D; 0xDD25; 98] 0 2) = 2 + 1 /\
  getVisibleWidth (visibleSubstring [97; 0xD83D; 0xDD25; 98] 1 2) <= 2 + 1.
Proof.
  split.
  - apply (proj2 (visibleSubstring_width_bound
                    [97; 0xD83D; 0xDD25; 98] 0 2 ltac:(lia) ltac:(lia))).
    exists [[97]], [0xD83D; 0xDD25]. repeat split.
  - apply (proj1 (visibleSubstring_width_bound
                    [97; 0xD83D; 0xDD25; 98] 1 2 ltac:(lia) ltac:(lia))).
Defined.

(** ** The display line of a tick *)

Lemma collect_until_all (length acc : Z) (us : list js_string) :
  (forall u, In u us -> 1 <= getVisibleWidth u) ->
  acc + total_width us <= length ->
  collect_until length acc us = us.
Proof.
  revert acc. induction us as [|u rest IH]; intros acc Hpos Hle.
  - reflexivity.
  - cbn [total_width fold_right] in Hle. fold (total_width rest) in Hle.
    pose proof (total_width_nonneg rest).
    pose proof (Hpos u (or_introl eq_refl)).
    cbn [collect_until]. destruct (acc >=? length) eqn:E; [lia|].
    f_equal. apply IH; [|lia]. intros v Hv. apply Hpos. now right.
Qed.

(** A string that fits into [length] columns is its own visible substring
    from column 0. *)
Lemma visibleSubstring_whole (s : js_string) (length : Z) :
  getVisibleWidth s <= length -> visibleSubstring s 0 length = s.
Proof.
  intros H. rewrite visibleSubstring_refines. unfold visibleSubstring_spec.
  pose proof (chars_segmented s) as S.
  assert (Hpos : forall u, In u (chars s) -> 1 <= getVisibleWidth u)
    by (intros u Hu; apply (segmented_positive (chars s) u S Hu)).
  rewrite skip_before_keep.
  2: { intros u tl Hu. specialize (Hpos u). rewrite Hu in Hpos.
       specialize (Hpos (or_introl eq_refl)). lia. }
  rewrite collect_until_all; [apply concat_chars | assumption |].
  rewrite <- getVisibleWidth_total. lia.
Qed.

Lemma displayLine_value (terminalWidth offset : Z) (line : js_string) :
  displayLine terminalWidth offset line
  = padToWidth
      (if offset >=? 0
       then repeat_nat SPACE (Z.to_nat offset)
              ++ visibleSubstring line 0 (terminalWidth - offset)
       else visibleSubstring line (- offset) terminalWidth)
      terminalWidth None.
Proof.
  unfold displayLine, repeat.
  destruct (offset >=? 0) eqn:E; [|reflexivity].
  destruct (offset <? 0) eqn:E2; [lia | reflexivity].
Qed.

Lemma displayLine_normal (terminalWidth offset : Z) (line : js_string) :
  exists shown,
    displayLine terminalWidth offset line = Normal shown /\
    terminalWidth <= getVisibleWidth shown.
Proof.
  rewrite displayLine_value.
  match goal with |- context [padToWidth ?a _ _] => set (assembled := a) end.
  destruct (padToWidth assembled terminalWidth None) as [shown|e] eqn:E.
  - exists shown. split; [reflexivity|].
    rewrite (padToWidth_default_width _ _ _ E). lia.
  - rewrite padToWidth_value in E. discriminate.
Qed.

(** C2. The display line of a tick is computed from
    [offset = terminalWidth - frame]: [offset] spaces followed by the
    visible substring from column 0 of length [terminalWidth - offset] when
    [offset >= 0], the visible substring from column [-offset] of length
    [terminalWidth] otherwise; the result is padded to [terminalWidth]
    columns and is what the tick writes after the clear-line sequence.
    With [terminalWidth = 10]: at frame 0 the offset is 10 and the display
    line is 10 spaces; at frame 10 the offset is 0 and a banner line of
    width 4 is shown whole, followed by 6 spaces. *)
Theorem display_line_of_tick (line : js_string) (terminalWidth frame : Z) :
  1 <= terminalWidth ->
  let offset := scroll_offset terminalWidth frame in
  offset = terminalWidth - frame /\
  displayLine terminalWidth offset line
  = padToWidth
      (if 0 <=? offset
       then repeat_nat SPACE (Z.to_nat offset)
              ++ visibleSubstring line 0 (terminalWidth - offset)
       else visibleSubstring line (- offset) terminalWidth)
      terminalWidth None /\
  (exists shown,
      displayLine terminalWidth offset line = Normal shown /\
      terminalWidth <= getVisibleWidth shown /\
      (forall sink w,
          draw_lines sink terminalWidth offset 1 0 [line] w
          = write sink (ANSI.CLEAR_LINE ++ shown) w) /\
      (forall speed totalFrames w,
          animation_iteration accept_all speed terminalWidth 1 [line]
            totalFrames frame w
          = (Normal (Z.rem (frame + 1) totalFrames),
             w ++ [EvWrite (ANSI.CLEAR_LINE ++ shown);
                   EvWrite ANSI.CURSOR_TO_START;
                   EvSleep speed]))) /\
  (terminalWidth = 10 -> frame = 0 ->
   offset = 10 /\
   displayLine terminalWidth offset line = Normal (repeat_nat SPACE 10)) /\
  (terminalWidth = 10 -> frame = 10 ->
   offset = 0 /\
   (getVisibleWidth line = 4 ->
    10 + getVisibleWidth line = 14 /\
    displayLine terminalWidth offset line
    = Normal (line ++ repeat_nat SPACE 6))).
Proof.
  intros Htw offset. split; [reflexivity|]. split; [|split; [|split]].
  - rewrite displayLine_value. now rewrite Z.geb_leb.
  - destruct (displayLine_normal terminalWidth offset line)
      as (shown & Hshown & Hwide).
    assert (Hdraw : forall sink w,
               draw_lines sink terminalWidth offset 1 0 [line] w
               = write sink (ANSI.CLEAR_LINE ++ shown) w).
    { intros sink w. cbn [draw_lines]. unfold bind, lift. rewrite Hshown.
      unfold write, ret.
      destruct (sink w (ANSI.CLEAR_LINE ++ shown)); reflexivity. }
    exists shown. split; [exact Hshown|]. split; [exact Hwide|].
    split; [exact Hdraw|].
    intros speed totalFrames w. unfold animation_iteration, tick.
    fold offset. unfold bind at 1. unfold bind at 1. rewrite Hdraw.
    unfold write, accept_all, bind, ret, sleep.
    change (1 >? 1) with false. cbv beta iota.
    now rewrite <- !app_assoc.
  - intros -> ->. subst offset. split; [reflexivity|].
    rewrite displayLine_value. change (scroll_offset 10 0) with 10.
    change (10 >=? 0) with true. cbv iota.
    rewrite (visibleSubstring_nothing line 0 (10 - 10)) by lia.
    rewrite app_nil_r. reflexivity.
  - intros -> ->. subst offset. split; [reflexivity|]. intros Hline.
    split; [lia|].
    rewrite displayLine_value. change (scroll_offset 10 10) with 0.
    change (0 >=? 0) with true. cbv iota.
    change (repeat_nat SPACE (Z.to_nat 0)) with (@nil code_unit).
    rewrite app_nil_l, visibleSubstring_whole by lia.
    rewrite padToWidth_value, Hline. reflexivity.
Qed.

Lemma display_line_of_tick_witness :
  displayLine 10 (scroll_offset 10 0) [0xD83D; 0xDD25; 0xD83D; 0xDD25]
  = Normal (repeat_nat SPACE 10) /\
  displayLine 10 (scroll_offset 10 10) [0xD83D; 0xDD25; 0xD83D; 0xDD25]
  = Normal ([0xD83D; 0xDD25; 0xD83D; 0xDD25] ++ repeat_nat SPACE 6).
Proof.
  split.
  - apply (display_line_of_tick [0xD83D; 0xDD25; 0xD83D; 0xDD25] 10 0);
      reflexivity || lia.
  - apply (display_line_of_tick [0xD83D; 0xDD25; 0xD83D; 0xDD25] 10 10);
      reflexivity || lia.
Defined.

(** ** The bounded animator *)

Lemma ticks_app (w w' : world) : ticks (w ++ w') = ticks w + ticks w'.
Proof.
  induction w as [|[chunk|ms] w IH]; cbn [app ticks]; lia.
Qed.

Lemma output_stream_app (w w' : world) :
  output_stream (w ++ w') = output_stream w ++ output_stream w'.
Proof.
  induction w as [|[chunk|ms] w IH]; cbn [app output_stream].
  - reflexivity.
  - now rewrite IH, app_assoc.
  - exact IH.
Qed.

Lemma split_nonempty (sep : code_unit) (str : js_string) :
  split sep str <> [].
Proof.
  destruct str as [|c rest]; simpl; [discriminate|].
  destruct (c =? sep); [discriminate|].
  destruct (split sep rest); discriminate.
Qed.

Lemma fold_max_spec (xs : list Z) (x : Z) :
  (forall y, In y (x :: xs) -> y <= fold_left Z.max xs x) /\
  In (fold_left Z.max xs x) (x :: xs).
Proof.
  revert x. induction xs as [|z xs IH]; intros x.
  - simpl. split; [intros y [<- | []]; lia | now left].
  - cbn [fold_left]. destruct (IH (Z.max x z)) as [Hle Hin]. split.
    + intros y [<- | [<- | Hy]].
      * specialize (Hle (Z.max x z) (or_introl eq_refl)). lia.
      * specialize (Hle (Z.max x z) (or_introl eq_refl)). lia.
      * apply Hle. now right.
    + destruct Hin as [Hin | Hin].
      * rewrite <- Hin. destruct (Z.max_spec x z) as [[_ ->] | [_ ->]];
          [right; now left | now left].
      * right. now right.
Qed.

(** [maxBannerVisualWidth] is the maximum of the widths of the lines. *)
Lemma maxBannerVisualWidth_spec (bannerText : js_string) :
  Math_max (map getVisibleWidth (split NEWLINE bannerText))
  = Some (maxBannerVisualWidth bannerText) /\
  (forall line, In line (split NEWLINE bannerText) ->
                getVisibleWidth line <= maxBannerVisualWidth bannerText) /\
  (exists line, In line (split NEWLINE bannerText) /\
                getVisibleWidth line = maxBannerVisualWidth bannerText).
Proof.
  unfold maxBannerVisualWidth.
  pose proof (split_nonempty NEWLINE bannerText) as Hne.
  destruct (split NEWLINE bannerText) as [|l ls]; [congruence|].
  cbn [map Math_max or_zero].
  destruct (fold_max_spec (map getVisibleWidth ls) (getVisibleWidth l))
    as [Hle Hin].
  split; [reflexivity|]. split.
  - intros line Hline. apply Hle.
    change (getVisibleWidth l :: map getVisibleWidth ls)
      with (map getVisibleWidth (l :: ls)).
    now apply in_map.
  - change (getVisibleWidth l :: map getVisibleWidth ls)
      with (map getVisibleWidth (l :: ls)) in Hin.
    apply in_map_iff in Hin. destruct Hin as (line & Hw & Hline).
    exists line. split; assumption.
Qed.

Lemma map_completion_padToWidth (target : Z) (lines : list js_string) :
  exists padded,
    map_completion (fun line => padToWidth line target None) lines
    = Normal padded.
Proof.
  induction lines as [|line rest [padded IH]].
  - exists []. reflexivity.
  - cbn [map_completion]. rewrite padToWidth_value, IH. cbn [cbind].
    eexists. reflexivity.
Qed.

(** The cursor is visible once the show-cursor sequence and then nothing
    but line feeds have been read, whatever came before. *)
Lemma cursor_scan_show (stream : js_string) (n : nat) (visible : bool) :
  cursor_scan visible (stream ++ ANSI.SHOW_CURSOR ++ repeat_nat [NEWLINE] n)
  = true.
Proof.
  revert visible. induction stream as [|c stream IH]; intros visible.
  - assert (Hnl : forall v, cursor_scan v (repeat_nat [NEWLINE] n) = v).
    { induction n as [|n IHn]; intros v; [reflexivity|].
      cbn [repeat_nat app cursor_scan]. apply IHn. }
    cbn [app ANSI.SHOW_CURSOR cursor_scan starts_with ANSI.HIDE_CURSOR].
    cbn. apply Hnl.
  - cbn [app cursor_scan]. apply IH.
Qed.

Section AnimatorFacts.

Variable sink : world -> js_string -> bool.

Lemma quiet_ret {A : Type} (a : A) : quiet (ret a).
Proof. intros w. reflexivity. Qed.

Lemma quiet_lift {A : Type} (c : completion A) : quiet (lift c).
Proof. intros w. reflexivity. Qed.

Lemma quiet_write (chunk : js_string) : quiet (write sink chunk).
Proof.
  intros w. unfold write. destruct (sink w chunk); cbn [snd]; [reflexivity|].
  rewrite ticks_app. simpl. lia.
Qed.

Lemma quiet_bind {A B : Type} (m : IO A) (k : A -> IO B) :
  quiet m -> (forall a, quiet (k a)) -> quiet (bind m k).
Proof.
  intros Hm Hk w. unfold bind. specialize (Hm w).
  destruct (m w) as [[a|e] w1]; cbn [snd] in *.
  - now rewrite (Hk a w1).
  - exact Hm.
Qed.

Lemma quiet_draw_lines (terminalWidth offset bannerHeight : Z)
  (lines : list js_string) :
  forall i, quiet (draw_lines sink terminalWidth offset bannerHeight i lines).
Proof.
  induction lines as [|line rest IH]; intros i; cbn [draw_lines].
  - apply quiet_ret.
  - apply quiet_bind; [apply quiet_lift | intros shown].
    apply quiet_bind; [apply quiet_write | intros _].
    apply quiet_bind; [|intros _; apply IH].
    destruct (i <? bannerHeight - 1); [apply quiet_write | apply quiet_ret].
Qed.

Lemma one_tick_bind {A : Type} (m : IO A) (k : A -> IO unit) :
  quiet m -> (forall a, one_tick (k a)) -> one_tick (bind m k).
Proof.
  intros Hm Hk w. unfold bind. specialize (Hm w).
  destruct (m w) as [[a|e] w1]; cbn [snd fst] in *.
  - rewrite <- Hm. apply Hk.
  - right. split; [now exists e | exact Hm].
Qed.

Lemma one_tick_sleep (ms : Z) : one_tick (sleep ms).
Proof.
  intros w. left. unfold sleep. cbn [fst snd]. split; [reflexivity|].
  rewrite ticks_app. simpl. lia.
Qed.

Lemma one_tick_tick (speed terminalWidth bannerHeight : Z)
  (paddedLines : list js_string) (frame : Z) :
  one_tick (tick sink speed terminalWidth bannerHeight paddedLines frame).
Proof.
  unfold tick.
  apply one_tick_bind; [apply quiet_draw_lines | intros _].
  apply one_tick_bind; [|intros _].
  { destruct (bannerHeight >? 1); [apply quiet_write | apply quiet_ret]. }
  apply one_tick_bind; [apply quiet_write | intros _].
  apply one_tick_sleep.
Qed.

Lemma completes_ret {A : Type} (a : A) : completes (ret a).
Proof. intros w. now exists a. Qed.

Lemma completes_write (chunk : js_string) :
  accepting sink -> completes (write sink chunk).
Proof.
  intros Hacc w. exists tt. unfold write. now rewrite Hacc.
Qed.

Lemma completes_bind {A B : Type} (m : IO A) (k : A -> IO B) :
  completes m -> (forall a, completes (k a)) -> completes (bind m k).
Proof.
  intros Hm Hk w. unfold bind. destruct (Hm w) as [a Ha].
  destruct (m w) as [[a'|e] w1]; cbn [fst] in Ha; [|discriminate].
  apply Hk.
Qed.

Lemma completes_draw_lines (terminalWidth offset bannerHeight : Z)
  (lines : list js_string) :
  accepting sink ->
  forall i,
    completes (draw_lines sink terminalWidth offset bannerHeight i lines).
Proof.
  intros Hacc.
  induction lines as [|line rest IH]; intros i; cbn [draw_lines].
  - apply completes_ret.
  - apply completes_bind.
    { intros w. destruct (displayLine_normal terminalWidth offset line)
        as (shown & Hshown & _).
      exists shown. unfold lift. now rewrite Hshown. }
    intros shown.
    apply completes_bind; [now apply completes_write | intros _].
    apply completes_bind; [|intros _; apply IH].
    destruct (i <? bannerHeight - 1);
      [now apply completes_write | apply completes_ret].
Qed.

Lemma completes_tick (speed terminalWidth bannerHeight : Z)
  (paddedLines : list js_string) (frame : Z) :
  accepting sink ->
  completes (tick sink speed terminalWidth bannerHeight paddedLines frame).
Proof.
  intros Hacc. unfold tick.
  apply completes_bind; [now apply completes_draw_lines | intros _].
  apply completes_bind; [|intros _].
  { destruct (bannerHeight >? 1);
      [now apply completes_write | apply completes_ret]. }
  apply completes_bind; [now apply completes_write | intros _].
  intros w. now exists tt.
Qed.



End AnimatorFacts.

(** A config that gives both fields overrides both defaults. *)
Lemma merge_config_given (defaults : AnimationConfig) (s t : Z) :
  speed (merge_config defaults
           {| speed_opt := Some s; terminalWidth_opt := Some t |}) = s /\
  terminalWidth (merge_config defaults
                   {| speed_opt := Some s; terminalWidth_opt := Some t |}) = t.
Proof. split; reflexivity. Qed.

Lemma cursor_visible_after_show (w : world) (n : nat) :
  cursor_visible (w ++ [EvWrite ANSI.SHOW_CURSOR]) = true /\
  cursor_visible
    ((w ++ [EvWrite ANSI.SHOW_CURSOR]) ++ [EvWrite (repeat_nat [NEWLINE] n)])
  = true.
Proof.
  unfold cursor_visible. rewrite !output_stream_app. cbn [output_stream].
  rewrite !app_nil_r. split.
  - rewrite <- (app_nil_r ANSI.SHOW_CURSOR).
    apply (cursor_scan_show (output_stream w) 0).
  - rewrite <- app_assoc. apply cursor_scan_show.
Qed.




(** ** Remarks: where the hypotheses and the heuristic bite *)

(** The second of three fire glyphs, each two columns wide, is the visible
    substring from column 2 of length 2. *)
Example second_glyph :
  visibleSubstring
    [0xD83D; 0xDD25; 0xD83D; 0xDD25; 0xD83D; 0xDD25] 2 2
  = [0xD83D; 0xDD25].
Proof. reflexivity. Qed.

(** A glyph that straddles the split column is returned by both halves. *)
Example straddling_glyph_is_doubled :
  item_boundary (chars [0xD83D; 0xDD25]) 0 1 = false /\
  visibleSubstring [0xD83D; 0xDD25] 0 1
    ++ visibleSubstring [0xD83D; 0xDD25] 1 (getVisibleWidth [0xD83D; 0xDD25] - 1)
  = [0xD83D; 0xDD25; 0xD83D; 0xDD25].
Proof. split; reflexivity. Qed.

(** The width threshold is strict: U+1F300 itself is one column wide, the
    next code point two. *)
Example threshold_is_strict :
  getVisibleWidth [0xD83C; 0xDF00] = 1 /\ getVisibleWidth [0xD83C; 0xDF01] = 2.
Proof. split; reflexivity. Qed.

(** The items are code points: a surrogate pair is never cut, a sequence
    of several code points (here U+2764 U+FE0F) can be. *)
Example cut_between_code_points :
  visibleSubstring [0x2764; 0xFE0F] 0 1 = [0x2764].
Proof. reflexivity. Qed.

(** With a pad string that starts with a low surrogate the seam can merge
    into one code point, and padding twice then differs from padding once;
    the default pad [' '] never merges. *)
Example low_surrogate_pad_merges :
  padToWidth [0xD800] 2 (Some [0xDC00]) = Normal [0xD800; 0xDC00] /\
  padToWidth [0xD800; 0xDC00] 2 (Some [0xDC00])
  = Normal [0xD800; 0xDC00; 0xDC00].
Proof. split; reflexivity. Qed.

(** ** More on the text engine *)

(** X1. The width of a concatenation is the sum of the widths, unless the
    right part starts with a low surrogate (which could merge with a high
    surrogate at the end of the left part). *)
Theorem width_of_concatenation (s t : js_string) :
  head_low_unit t = false ->
  getVisibleWidth (s ++ t) = getVisibleWidth s + getVisibleWidth t.
Proof. apply getVisibleWidth_app. Qed.

Lemma width_of_concatenation_witness :
  getVisibleWidth ([0xD83D; 0xDD25] ++ [104; 105])
  = getVisibleWidth [0xD83D; 0xDD25] + getVisibleWidth [104; 105].
Proof. apply width_of_concatenation. reflexivity. Defined.

Lemma surrogate_free_chars (s : js_string) :
  surrogate_free s = true -> chars s = map (fun c => [c]) s.
Proof.
  induction s as [|c rest IH]; intros H; [reflexivity|].
  cbn [surrogate_free forallb] in H. apply andb_prop in H.
  destruct H as [Hc Hrest]. apply andb_prop in Hc. destruct Hc as [Hh _].
  apply negb_true_iff in Hh.
  rewrite chars_not_high by assumption. cbn [map]. f_equal.
  now apply IH.
Qed.

Lemma narrow_unit_width (c : code_unit) :
  c <= 0x1F300 -> getVisibleWidth [c] = 1.
Proof.
  intros H. unfold getVisibleWidth. cbn [chars fold_left].
  unfold getVisibleWidth_step, codePointAt0.
  assert (Hc : or_zero (if is_high_surrogate c then Some c else Some c) = c)
    by (destruct (is_high_surrogate c); reflexivity).
  rewrite Hc. destruct (c >? 127744) eqn:E; lia.
Qed.

Lemma total_width_singletons (s : js_string) :
  sixteen_bit s -> total_width (map (fun c => [c]) s) = Z.of_nat (length s).
Proof.
  induction 1 as [|c rest Hc Hrest IH]; [reflexivity|].
  change (total_width (map (fun c => [c]) (c :: rest)))
    with (getVisibleWidth [c] + total_width (map (fun c => [c]) rest)).
  rewrite narrow_unit_width by lia. cbn [length].
  etransitivity; [apply f_equal, IH | lia].
Qed.

(** X2. A string of 16-bit code units is never wider than it is long, and
    exactly as wide as long when it holds no surrogate. *)
Theorem width_at_most_length (s : js_string) :
  sixteen_bit s ->
  getVisibleWidth s <= Z.of_nat (length s) /\
  (surrogate_free s = true -> getVisibleWidth s = Z.of_nat (length s)).
Proof.
  intros H16. split; [now apply getVisibleWidth_le_length|].
  intros Hfree. rewrite getVisibleWidth_total, surrogate_free_chars by assumption.
  now apply total_width_singletons.
Qed.

Lemma width_at_most_length_witness :
  getVisibleWidth [0xD83C; 0xDF00; 97] <= Z.of_nat (length [0xD83C; 0xDF00; 97])
  /\ getVisibleWidth [104; 105] = Z.of_nat (length [104; 105]).
Proof.
  split.
  - apply (width_at_most_length [0xD83C; 0xDF00; 97]). repeat constructor; lia.
  - apply (width_at_most_length [104; 105]);
      [repeat constructor; lia | reflexivity].
Defined.

Lemma padded_width_aux (s : js_string) (target : Z) :
  exists padded,
    padToWidth s target None = Normal padded /\
    getVisibleWidth padded = Z.max (getVisibleWidth s) target.
Proof.
  destruct (padToWidth s target None) as [padded|e] eqn:E.
  - exists padded. split; [reflexivity|].
    now apply (padToWidth_default_width s target).
  - rewrite padToWidth_value in E. discriminate.
Qed.

(** X3. Padding with the default pad character always succeeds and gives a
    string whose width is the larger of the old width and the target. *)
Theorem padded_width (s : js_string) (target : Z) :
  exists padded,
    padToWidth s target None = Normal padded /\
    getVisibleWidth padded = Z.max (getVisibleWidth s) target.
Proof. apply padded_width_aux. Qed.

(** X4. A visible substring is as wide as asked for unless the string ends
    first: its width is at least the smaller of [length] and what is left
    of the string from column [start] on. *)
Theorem visibleSubstring_width_lower (s : js_string) (start length : Z) :
  0 <= start ->
  Z.min length (getVisibleWidth s - start)
  <= getVisibleWidth (visibleSubstring s start length).
Proof.
  intros Hstart.
  destruct (skip_before_split start (chars s) 0) as (skipped & Hs & Hle & _).
  destruct (collect_until_split length (skip_before start 0 (chars s)) 0)
    as (rest & Hc & _ & Hfull).
  set (kept := skip_before start 0 (chars s)) in *.
  set (collected := collect_until length 0 kept) in *.
  assert (Hall : chars s = skipped ++ collected ++ rest)
    by (rewrite <- Hc; exact Hs).
  assert (Hw : getVisibleWidth (visibleSubstring s start length)
               = total_width collected).
  { rewrite getVisibleWidth_total, visibleSubstring_refines.
    unfold visibleSubstring_spec. fold kept. fold collected.
    now rewrite (chars_concat_run s skipped collected rest Hall). }
  rewrite Hw. destruct rest as [|u rest'].
  - assert (Hsk : total_width skipped <= start).
    { destruct skipped as [|v sk]; [simpl; lia|].
      assert (v :: sk <> []) as Hne by discriminate.
      specialize (Hle Hne). lia. }
    rewrite getVisibleWidth_total, Hall, app_nil_r, total_width_app. lia.
  - assert (u :: rest' <> []) as Hne by discriminate.
    specialize (Hfull Hne). lia.
Qed.

Lemma visibleSubstring_width_lower_witness :
  Z.min 3 (getVisibleWidth [97; 0xD83D; 0xDD25; 98; 99] - 1)
  <= getVisibleWidth (visibleSubstring [97; 0xD83D; 0xDD25; 98; 99] 1 3).
Proof. apply visibleSubstring_width_lower. lia. Defined.

Lemma collect_until_prefix (l1 l2 : Z) (us : list js_string) (acc : Z) :
  l1 <= l2 ->
  exists more, collect_until l2 acc us = collect_until l1 acc us ++ more.
Proof.
  intros Hl. revert acc. induction us as [|u rest IH]; intros acc.
  - exists []. reflexivity.
  - cbn [collect_until].
    destruct (acc >=? l1) eqn:E1.
    + eexists. reflexivity.
    + destruct (acc >=? l2) eqn:E2; [lia|].
      destruct (IH (acc + getVisibleWidth u)) as [more Hmore].
      exists more. rewrite Hmore. reflexivity.
Qed.

(** X6. Asking for more columns only appends: the visible substring of
    length [l1] is a prefix of the one of length [l2 >= l1] from the same
    column. *)
Theorem visibleSubstring_length_monotone (s : js_string) (start l1 l2 : Z) :
  l1 <= l2 ->
  is_prefix (visibleSubstring s start l1) (visibleSubstring s start l2).
Proof.
  intros Hl. rewrite !visibleSubstring_refines. unfold visibleSubstring_spec.
  destruct (collect_until_prefix l1 l2 (skip_before start 0 (chars s)) 0 Hl)
    as [more Hmore].
  exists (concat more). now rewrite Hmore, concat_app.
Qed.

Lemma visibleSubstring_length_monotone_witness :
  is_prefix (visibleSubstring [97; 0xD83D; 0xDD25; 98; 99] 1 1)
            (visibleSubstring [97; 0xD83D; 0xDD25; 98; 99] 1 3).
Proof. apply visibleSubstring_length_monotone. lia. Defined.

Lemma concat_singletons (s : js_string) : concat (map (fun c => [c]) s) = s.
Proof. induction s as [|c rest IH]; [reflexivity|]. cbn. now rewrite IH. Qed.

Lemma sixteen_bit_skipn (n : nat) (s : js_string) :
  sixteen_bit s -> sixteen_bit (skipn n s).
Proof.
  revert s. induction n as [|n IH]; intros s H; [exact H|].
  destruct s as [|c rest]; [exact H|].
  cbn [skipn]. apply IH. now inversion H.
Qed.

Lemma skip_before_singletons (start : Z) (s : js_string) (pos : Z) :
  sixteen_bit s -> pos <= start ->
  skip_before start pos (map (fun c => [c]) s)
  = map (fun c => [c]) (skipn (Z.to_nat (start - pos)) s).
Proof.
  intros H16. revert pos. induction H16 as [|c rest Hc Hrest IH]; intros pos Hpos.
  - now rewrite skipn_nil.
  - cbn [map skip_before]. rewrite narrow_unit_width by lia.
    destruct (pos + 1 <=? start) eqn:E.
    + rewrite IH by lia.
      replace (Z.to_nat (start - pos)) with (S (Z.to_nat (start - (pos + 1))))
        by lia.
      reflexivity.
    + replace (Z.to_nat (start - pos)) with 0%nat by lia. reflexivity.
Qed.

Lemma collect_until_singletons (length : Z) (s : js_string) (acc : Z) :
  sixteen_bit s -> acc <= length ->
  collect_until length acc (map (fun c => [c]) s)
  = map (fun c => [c]) (firstn (Z.to_nat (length - acc)) s).
Proof.
  intros H16. revert acc.
  induction H16 as [|c rest Hc Hrest IH]; intros acc Hacc.
  - now rewrite firstn_nil.
  - cbn [map collect_until]. rewrite narrow_unit_width by lia.
    destruct (acc >=? length) eqn:E.
    + replace (Z.to_nat (length - acc)) with 0%nat by lia. reflexivity.
    + rewrite IH by lia.
      replace (Z.to_nat (length - acc)) with (S (Z.to_nat (length - (acc + 1))))
        by lia.
      reflexivity.
Qed.

(** X5. On a string of 16-bit code units without surrogates the visible
    substring is the ordinary one: [length] code units from index
    [start]. *)
Theorem visibleSubstring_plain (s : js_string) (start length : Z) :
  sixteen_bit s -> surrogate_free s = true ->
  0 <= start -> 0 <= length ->
  visibleSubstring s start length
  = firstn (Z.to_nat length) (skipn (Z.to_nat start) s).
Proof.
  intros H16 Hfree Hstart Hlength.
  rewrite visibleSubstring_refines. unfold visibleSubstring_spec.
  rewrite surrogate_free_chars by assumption.
  rewrite skip_before_singletons by (assumption || lia).
  rewrite collect_until_singletons by (try apply sixteen_bit_skipn; assumption || lia).
  rewrite concat_singletons, !Z.sub_0_r. reflexivity.
Qed.

Lemma visibleSubstring_plain_witness :
  visibleSubstring [104; 101; 108; 108; 111] 1 3 = [101; 108; 108].
Proof.
  apply (visibleSubstring_plain [104; 101; 108; 108; 111] 1 3);
    try lia; try reflexivity.
  repeat constructor; lia.
Defined.

Lemma visibleSubstring_width_total (s : js_string) (start length : Z) :
  getVisibleWidth (visibleSubstring s start length)
  = total_width (collect_until length 0 (skip_before start 0 (chars s))).
Proof.
  destruct (visibleSubstring_run s start length)
    as (skipped & rest & _ & _ & _ & Hitems).
  cbv zeta in Hitems. now rewrite getVisibleWidth_total, Hitems.
Qed.

Lemma skip_before_In (start : Z) (us : list js_string) (pos : Z)
  (u : js_string) :
  In u (skip_before start pos us) -> In u us.
Proof.
  destruct (skip_before_split start us pos) as (skipped & Hs & _ & _).
  intros Hin. rewrite Hs. apply in_or_app. now right.
Qed.

Lemma visibleSubstring_width_upper (s : js_string) (start length : Z) :
  0 <= length ->
  getVisibleWidth (visibleSubstring s start length) <= length + 1.
Proof.
  intros Hlength. rewrite visibleSubstring_width_total.
  pose proof (collect_until_bound length (skip_before start 0 (chars s)) 0) as B.
  simpl in B. apply B; [|lia].
  intros u Hu. apply skip_before_In in Hu.
  apply (segmented_positive (chars s) u (chars_segmented s) Hu).
Qed.

Lemma collect_until_bound_narrow (length : Z) (us : list js_string) (acc : Z) :
  (forall u, In u us -> getVisibleWidth u = 1) ->
  acc <= length ->
  acc + total_width (collect_until length acc us) <= length.
Proof.
  revert acc. induction us as [|u rest IH]; intros acc Hw Hacc.
  - simpl. lia.
  - cbn [collect_until]. destruct (acc >=? length) eqn:E.
    + simpl. lia.
    + cbn [total_width fold_right].
      fold (total_width (collect_until length (acc + getVisibleWidth u) rest)).
      pose proof (Hw u (or_introl eq_refl)) as Hu.
      assert (acc + getVisibleWidth u <= length) as Hnext by lia.
      specialize (IH (acc + getVisibleWidth u)
                     (fun v Hv => Hw v (or_intror Hv)) Hnext).
      lia.
Qed.

Lemma visibleSubstring_width_narrow (s : js_string) (start length : Z) :
  Forall (fun u => getVisibleWidth u = 1) (chars s) ->
  0 <= length ->
  getVisibleWidth (visibleSubstring s start length) <= length.
Proof.
  intros Hn Hlength. rewrite visibleSubstring_width_total.
  pose proof (collect_until_bound_narrow length
                (skip_before start 0 (chars s)) 0) as B.
  simpl in B. apply B; [|lia].
  intros u Hu. apply skip_before_In in Hu.
  rewrite Forall_forall in Hn. now apply Hn.
Qed.

Lemma getVisibleWidth_spaces_app (n : nat) (t : js_string) :
  getVisibleWidth (repeat_nat SPACE n ++ t) = Z.of_nat n + getVisibleWidth t.
Proof.
  induction n as [|n IH]; [simpl; lia|].
  cbn [repeat_nat SPACE app]. fold SPACE.
  unfold getVisibleWidth in *. rewrite chars_not_high by reflexivity.
  cbn [fold_left]. rewrite fold_step_shift, IH.
  change (getVisibleWidth_step 0 [32]) with 1. lia.
Qed.

(** X7. From frame 0 on, the display line of a tick is [terminalWidth] or
    [terminalWidth + 1] columns wide: a two-column glyph at the right edge
    is drawn whole and overhangs by one column. A line of one-column items
    only is drawn exactly [terminalWidth] columns wide. *)
Theorem display_line_width (line : js_string) (terminalWidth frame : Z) :
  1 <= terminalWidth -> 0 <= frame ->
  exists shown,
    displayLine terminalWidth (scroll_offset terminalWidth frame) line
    = Normal shown /\
    terminalWidth <= getVisibleWidth shown <= terminalWidth + 1 /\
    (Forall (fun u => getVisibleWidth u = 1) (chars line) ->
     getVisibleWidth shown = terminalWidth).
Proof.
  intros Htw Hframe. unfold scroll_offset. rewrite displayLine_value.
  match goal with |- context [padToWidth ?a _ _] => set (assembled := a) end.
  destruct (padded_width_aux assembled terminalWidth) as (shown & Hshown & Hw).
  exists shown. split; [exact Hshown|]. rewrite Hw.
  assert (Hupper : getVisibleWidth assembled <= terminalWidth + 1).
  { subst assembled. destruct (terminalWidth - frame >=? 0) eqn:E.
    - rewrite getVisibleWidth_spaces_app.
      pose proof (visibleSubstring_width_upper line 0
                    (terminalWidth - (terminalWidth - frame)) ltac:(lia)).
      lia.
    - pose proof (visibleSubstring_width_upper line
                    (- (terminalWidth - frame)) terminalWidth ltac:(lia)).
      lia. }
  split; [lia|]. intros Hnarrow.
  assert (Hn : getVisibleWidth assembled <= terminalWidth); [|lia].
  subst assembled. destruct (terminalWidth - frame >=? 0) eqn:E.
  - rewrite getVisibleWidth_spaces_app.
    pose proof (visibleSubstring_width_narrow line 0
                  (terminalWidth - (terminalWidth - frame)) Hnarrow ltac:(lia)).
    lia.
  - apply (visibleSubstring_width_narrow line _ terminalWidth Hnarrow). lia.
Qed.

Lemma display_line_width_witness :
  exists shown,
    displayLine 3 (scroll_offset 3 1) [0xD83D; 0xDD25; 97] = Normal shown /\
    3 <= getVisibleWidth shown <= 3 + 1.
Proof.
  destruct (display_line_width [0xD83D; 0xDD25; 97] 3 1) as (shown & H1 & H2 & _);
    try lia.
  exists shown. split; assumption.
Defined.

(** ** The lines of the banner in lock-step *)

Lemma pad_lines_to (target : Z) (lines : list js_string) :
  (forall line, In line lines -> getVisibleWidth line <= target) ->
  exists paddedLines,
    map_completion (fun line => padToWidth line target None) lines
    = Normal paddedLines /\
    Forall2 is_prefix lines paddedLines /\
    Forall (fun line => getVisibleWidth line = target) paddedLines.
Proof.
  induction lines as [|line rest IH]; intros Hle.
  - exists []. repeat split; constructor.
  - destruct IH as (paddedRest & Hmap & Hpre & Hw).
    { intros l Hl. apply Hle. now right. }
    destruct (padded_width_aux line target) as (padded & Hpad & Hpw).
    exists (padded :: paddedRest). cbn [map_completion].
    rewrite Hpad, Hmap. cbn [cbind]. split; [reflexivity|]. split.
    + constructor; [|exact Hpre].
      rewrite padToWidth_value in Hpad. injection Hpad as <-.
      destruct (getVisibleWidth line >=? target).
      * exists []. now rewrite app_nil_r.
      * eexists. reflexivity.
    + constructor; [|exact Hw].
      specialize (Hle line (or_introl eq_refl)). lia.
Qed.

(** X8. Both drivers pad every line of the banner to the width of its
    widest line: padding never fails, every padded line starts with its
    line, and all padded lines have that same width. *)
Theorem padded_lines_lock_step (bannerText : js_string) :
  exists paddedLines,
    map_completion
      (fun line => padToWidth line (maxBannerVisualWidth bannerText) None)
      (split NEWLINE bannerText)
    = Normal paddedLines /\
    Forall2 is_prefix (split NEWLINE bannerText) paddedLines /\
    Forall (fun line => getVisibleWidth line = maxBannerVisualWidth bannerText)
      paddedLines.
Proof.
  apply pad_lines_to.
  now destruct (maxBannerVisualWidth_spec bannerText) as (_ & Hle & _).
Qed.

(** ** The endless loop *)

Lemma animation_iteration_step (sink : world -> js_string -> bool)
  (speed terminalWidth bannerHeight : Z) (paddedLines : list js_string)
  (totalFrames frame : Z) (w : world) :
  let run := animation_iteration sink speed terminalWidth bannerHeight
               paddedLines totalFrames frame w in
  let drawn := tick sink speed terminalWidth bannerHeight paddedLines frame w in
  snd run = snd drawn /\
  ((fst drawn = Normal tt /\ fst run = Normal (Z.rem (frame + 1) totalFrames) /\
    ticks (snd run) = ticks w + 1) \/
   (exists e, fst drawn = Throw e /\ fst run = Throw e /\
              ticks (snd run) = ticks w)).
Proof.
  cbv zeta. unfold animation_iteration, bind, ret.
  pose proof (one_tick_tick sink speed terminalWidth bannerHeight paddedLines
                frame w) as H.
  destruct (tick sink speed terminalWidth bannerHeight paddedLines frame w)
    as [[[]|e] w1]; cbn [fst snd] in *.
  - split; [reflexivity|]. left.
    destruct H as [[_ Ht] | [[e He] _]]; [|discriminate]. auto.
  - split; [reflexivity|]. right. exists e.
    destruct H as [[Hn _] | [_ Ht]]; [discriminate|]. auto.
Qed.

Lemma animation_loop_S (sink : world -> js_string -> bool) (n : nat)
  (speed terminalWidth bannerHeight : Z) (paddedLines : list js_string)
  (totalFrames frame : Z) (w : world) :
  animation_loop sink (S n) speed terminalWidth bannerHeight paddedLines
    totalFrames frame w
  = match animation_iteration sink speed terminalWidth bannerHeight
            paddedLines totalFrames frame w with
    | (Normal next, w1) =>
        animation_loop sink n speed terminalWidth bannerHeight paddedLines
          totalFrames next w1
    | (Throw e, w1) => (Throw e, w1)
    end.
Proof. reflexivity. Qed.

Lemma animation_loop_frame (sink : world -> js_string -> bool) (n : nat)
  (speed terminalWidth bannerHeight : Z) (paddedLines : list js_string)
  (totalFrames : Z) :
  1 <= totalFrames ->
  forall frame w,
    0 <= frame < totalFrames ->
    let run := animation_loop sink n speed terminalWidth bannerHeight
                 paddedLines totalFrames frame w in
    (forall next, fst run = Normal next ->
       next = (frame + Z.of_nat n) mod totalFrames /\
       ticks (snd run) = ticks w + Z.of_nat n) /\
    ((exists e, fst run = Throw e) -> ticks (snd run) < ticks w + Z.of_nat n) /\
    (accepting sink -> exists next, fst run = Normal next).
Proof.
  intros Htotal. induction n as [|n IH]; intros frame w Hframe; cbv zeta.
  - cbn [animation_loop]. unfold ret. cbn [fst snd]. split; [|split].
    + intros next H. injection H as <-.
      rewrite Z.add_0_r, Z.mod_small by lia. split; [reflexivity | lia].
    + intros [e He]. discriminate.
    + intros _. now exists frame.
  - rewrite animation_loop_S.
    destruct (animation_iteration_step sink speed terminalWidth bannerHeight
                paddedLines totalFrames frame w) as [Hsnd Hcases].
    pose proof (completes_tick sink speed terminalWidth bannerHeight
                  paddedLines frame) as Hcomp.
    destruct (animation_iteration sink speed terminalWidth bannerHeight
                paddedLines totalFrames frame w) as [[next|e] w1];
      cbn [fst snd] in *.
    + destruct Hcases as [(_ & Hnext & Ht) | (e & _ & He & _)];
        [|discriminate].
      injection Hnext as ->. cbv beta iota.
      assert (Hrem : Z.rem (frame + 1) totalFrames
                     = (frame + 1) mod totalFrames)
        by (apply Z.rem_mod_nonneg; lia).
      rewrite Hrem.
      assert (Hrange : 0 <= (frame + 1) mod totalFrames < totalFrames)
        by (apply Z.mod_pos_bound; lia).
      destruct (IH ((frame + 1) mod totalFrames) w1 Hrange)
        as (Hn & Hthrow & Hacc).
      split; [|split].
      * intros next Hrun. destruct (Hn next Hrun) as [-> Hticks].
        split; [|rewrite Hticks, Ht, Nat2Z.inj_succ; ring].
        rewrite Zplus_mod_idemp_l. f_equal. rewrite Nat2Z.inj_succ. ring.
      * intros Hrun. specialize (Hthrow Hrun).
        rewrite Nat2Z.inj_succ. clear - Hthrow Ht. lia.
      * exact Hacc.
    + destruct Hcases as [(_ & Hnext & _) | (e' & Hdrawn & _ & Ht)];
        [discriminate|].
      cbv beta iota. cbn [fst snd]. split; [|split].
      * intros next H. discriminate.
      * intros _. lia.
      * intros Hacc. destruct (Hcomp Hacc w) as [a Ha].
        rewrite Ha in Hdrawn. discriminate.
Qed.

(** X9. The frame counter of the endless loop wraps around: after [n]
    passes from frame [frame] it is [(frame + n) mod totalFrames], and [n]
    pauses were taken; a pass that throws ends the loop earlier. With a
    sink that accepts every write the loop is still running after any
    number of passes. *)
Theorem frame_counter_wraps (sink : world -> js_string -> bool) (n : nat)
  (speed terminalWidth bannerHeight : Z) (paddedLines : list js_string)
  (totalFrames frame : Z) (w : world) :
  1 <= totalFrames -> 0 <= frame < totalFrames ->
  let run := animation_loop sink n speed terminalWidth bannerHeight
               paddedLines totalFrames frame w in
  (forall next, fst run = Normal next ->
     next = (frame + Z.of_nat n) mod totalFrames /\
     ticks (snd run) = ticks w + Z.of_nat n) /\
  ((exists e, fst run = Throw e) -> ticks (snd run) < ticks w + Z.of_nat n) /\
  (accepting sink -> exists next, fst run = Normal next).
Proof. intros Htotal Hframe. now apply animation_loop_frame. Qed.

Lemma frame_counter_wraps_witness :
  fst (animation_loop accept_all 7 5 3 1 [[97; 98]] 5 0 []) = Normal 2.
Proof.
  destruct (frame_counter_wraps accept_all 7 5 3 1 [[97; 98]] 5 0 [])
    as (Hn & _ & Hacc); try lia.
  destruct Hacc as [next Hnext]; [intros w chunk; reflexivity|].
  rewrite Hnext. f_equal. now destruct (Hn next Hnext) as [-> _].
Defined.

Lemma for_frames_as_loop (sink : world -> js_string -> bool)
  (speed terminalWidth bannerHeight : Z) (paddedLines : list js_string)
  (totalFrames : Z) (n : nat) :
  forall frame w,
    0 <= frame -> frame + Z.of_nat n = totalFrames ->
    let cycle := animation_loop sink n speed terminalWidth bannerHeight
                   paddedLines totalFrames frame w in
    for_frames totalFrames
      (tick sink speed terminalWidth bannerHeight paddedLines) frame w
    = (match fst cycle with
       | Normal _ => Normal tt
       | Throw e => Throw e
       end, snd cycle).
Proof.
  induction n as [|n IH]; intros frame w Hframe Hsum; cbv zeta.
  - rewrite for_frames_equation.
    destruct (frame <? totalFrames) eqn:E; [lia|]. reflexivity.
  - rewrite for_frames_equation.
    destruct (frame <? totalFrames) eqn:E; [|lia].
    rewrite animation_loop_S.
    destruct (animation_iteration_step sink speed terminalWidth bannerHeight
                paddedLines totalFrames frame w) as [Hsnd Hcases].
    destruct (animation_iteration sink speed terminalWidth bannerHeight
                paddedLines totalFrames frame w) as [[next|e] w1];
      destruct (tick sink speed terminalWidth bannerHeight paddedLines frame w)
        as [[[]|e'] w1']; cbn [fst snd] in *; subst w1'.
    + destruct Hcases as [(Hd & Hr & _) | (e0 & Hd & Hr & _)];
        [|discriminate].
      injection Hr as ->.
      destruct n as [|n'].
      * rewrite for_frames_equation.
        destruct (frame + 1 <? totalFrames) eqn:E'; [lia|]. reflexivity.
      * rewrite Z.rem_small by lia. apply IH; lia.
    + destruct Hcases as [(Hd & Hr & _) | (e0 & Hd & Hr & _)]; discriminate.
    + destruct Hcases as [(Hd & Hr & _) | (e0 & Hd & Hr & _)]; discriminate.
    + destruct Hcases as [(Hd & Hr & _) | (e0 & Hd & Hr & _)];
        [discriminate|].
      injection Hd as ->. injection Hr as ->. reflexivity.
Qed.

(** X12. One cycle of the endless animation is the single cycle: the
    first [totalFrames] passes of the loop of [runAnimation] leave the
    terminal exactly as the frame loop of [runSingleCycle] does, complete
    or throw with it, and end with the frame counter back at 0. *)
Theorem first_cycle_is_single_cycle (sink : world -> js_string -> bool)
  (speed terminalWidth bannerHeight : Z) (paddedLines : list js_string)
  (totalFrames : Z) (w : world) :
  1 <= totalFrames ->
  let cycle := animation_loop sink (Z.to_nat totalFrames) speed terminalWidth
                 bannerHeight paddedLines totalFrames 0 w in
  for_frames totalFrames
    (tick sink speed terminalWidth bannerHeight paddedLines) 0 w
  = (match fst cycle with
     | Normal _ => Normal tt
     | Throw e => Throw e
     end, snd cycle) /\
  (forall next, fst cycle = Normal next -> next = 0).
Proof.
  intros Htotal. cbv zeta. split.
  - apply for_frames_as_loop; lia.
  - intros next Hnext.
    destruct (animation_loop_frame sink (Z.to_nat totalFrames) speed
                terminalWidth bannerHeight paddedLines totalFrames Htotal 0 w)
      as (Hn & _); [lia|].
    destruct (Hn next Hnext) as [-> _].
    rewrite Z2Nat.id by lia. apply Z_mod_same_full.
Qed.

Lemma first_cycle_is_single_cycle_witness :
  for_frames 5 (tick accept_all 9 3 1 [[97; 98]]) 0 []
  = (Normal tt, snd (animation_loop accept_all 5 9 3 1 [[97; 98]] 5 0 [])).
Proof.
  destruct (first_cycle_is_single_cycle accept_all 9 3 1 [[97; 98]] 5 [])
    as [Hcycle _]; [lia|].
  exact Hcycle.
Defined.

(** ** The cursor during the endless animation *)

Lemma runAnimation_shape (sink : world -> js_string -> bool)
  (columns : option Z) (n : nat) (bannerText : js_string)
  (speed terminalWidth : Z) (w0 : world) :
  exists paddedLines,
    map_completion
      (fun line => padToWidth line (maxBannerVisualWidth bannerText) None)
      (split NEWLINE bannerText)
    = Normal paddedLines /\
    runAnimation sink columns n bannerText
      {| speed_opt := Some speed; terminalWidth_opt := Some terminalWidth |} w0
    = if sink w0 ANSI.HIDE_CURSOR then (Throw WriteError, w0)
      else loop_finally sink
             (animation_loop sink n speed terminalWidth
                (Z.of_nat (length (split NEWLINE bannerText))) paddedLines
                (terminalWidth + maxBannerVisualWidth bannerText) 0)
             (w0 ++ [EvWrite ANSI.HIDE_CURSOR]).
Proof.
  destruct (maxBannerVisualWidth_spec bannerText) as (HM & _ & _).
  destruct (map_completion_padToWidth (maxBannerVisualWidth bannerText)
              (split NEWLINE bannerText)) as [paddedLines Hpad].
  exists paddedLines. split; [exact Hpad|].
  unfold runAnimation. cbv zeta.
  destruct (merge_config_given (DEFAULT_CONFIG columns) speed terminalWidth)
    as [Hs Ht].
  rewrite Hs, Ht, HM. unfold bind at 1. unfold lift at 1. rewrite Hpad.
  unfold bind at 1. unfold write at 1.
  destruct (sink w0 ANSI.HIDE_CURSOR); reflexivity.
Qed.

(** X10. When a pass of the endless animation throws, the [finally] block
    has run before the error leaves [runAnimation]: the cursor is visible
    again, given that the sink accepts the show-cursor sequence. *)
Theorem runAnimation_restores_cursor (sink : world -> js_string -> bool)
  (columns : option Z) (n : nat) (bannerText : js_string)
  (speed terminalWidth : Z) (w0 : world) :
  (forall w, sink w ANSI.SHOW_CURSOR = false) ->
  cursor_visible w0 = true ->
  let run := runAnimation sink columns n bannerText
               {| speed_opt := Some speed;
                  terminalWidth_opt := Some terminalWidth |} w0 in
  (exists e, fst run = Throw e) -> cursor_visible (snd run) = true.
Proof.
  intros Hshow Hvis run. subst run.
  destruct (runAnimation_shape sink columns n bannerText speed terminalWidth w0)
    as (paddedLines & _ & ->).
  destruct (sink w0 ANSI.HIDE_CURSOR); [intros _; exact Hvis|].
  unfold loop_finally.
  destruct (animation_loop sink n speed terminalWidth _ paddedLines _ 0 _)
    as [[frame|e] w1].
  - intros [e He]. discriminate.
  - intros _. unfold cleanup, bind, write. rewrite Hshow.
    destruct (cursor_visible_after_show w1 1) as [Hv1 Hv2].
    destruct (sink (w1 ++ [EvWrite ANSI.SHOW_CURSOR]) [NEWLINE]);
      cbn [fst snd]; assumption.
Qed.

Lemma runAnimation_restores_cursor_witness :
  let run := runAnimation reject_line_feed None 4 [97; 98; 10; 99]
               {| speed_opt := Some 5; terminalWidth_opt := Some 3 |} [] in
  fst run = Throw WriteError /\ cursor_visible (snd run) = true.
Proof.
  cbv zeta. split; [reflexivity|].
  apply (runAnimation_restores_cursor reject_line_feed None 4 [97; 98; 10; 99]
           5 3 []).
  - intros w. reflexivity.
  - reflexivity.
  - exists WriteError. reflexivity.
Defined.

Lemma esc_ok_app (a b : js_string) :
  esc_ok a = true -> esc_ok b = true -> esc_ok (a ++ b) = true.
Proof.
  intros Ha Hb. induction a as [|c rest IH]; [exact Hb|].
  cbn [esc_ok app] in *. apply andb_prop in Ha. destruct Ha as [Hc Hrest].
  apply andb_true_intro. split; [|now apply IH].
  destruct (c =? ANSI.ESC); [|reflexivity].
  destruct rest as [|y [|x rest']]; try discriminate. exact Hc.
Qed.

Lemma esc_free_esc_ok (s : js_string) : esc_free s = true -> esc_ok s = true.
Proof.
  induction s as [|c rest IH]; intros H; [reflexivity|].
  cbn [esc_free forallb] in H. apply andb_prop in H. destruct H as [Hc Hrest].
  cbn [esc_ok]. apply negb_true_iff in Hc. rewrite Hc. now apply IH.
Qed.

Lemma esc_free_app (a b : js_string) :
  esc_free (a ++ b) = esc_free a && esc_free b.
Proof. apply forallb_app. Qed.

Lemma starts_with_cursor_seq (tail stream : js_string) :
  starts_with (ANSI.ESC :: 91 :: 63 :: tail) stream = true ->
  exists y x rest, stream = ANSI.ESC :: y :: x :: rest /\ x = 63.
Proof.
  destruct stream as [|c [|y [|x rest]]]; cbn [starts_with];
    try discriminate; try (rewrite ?andb_false_r; discriminate).
  intros H. apply andb_prop in H. destruct H as [Hc H].
  apply andb_prop in H. destruct H as [_ H].
  apply andb_prop in H. destruct H as [Hx _].
  apply Z.eqb_eq in Hc, Hx. subst. now exists y, 63, rest.
Qed.

Lemma cursor_scan_esc_ok (s : js_string) (visible : bool) :
  esc_ok s = true -> cursor_scan visible s = visible.
Proof.
  revert visible. induction s as [|c rest IH]; intros visible H;
    [reflexivity|].
  cbn [cursor_scan]. cbn [esc_ok] in H. apply andb_prop in H.
  destruct H as [Hc Hrest].
  assert (Hno : forall tail,
             starts_with (ANSI.ESC :: 91 :: 63 :: tail) (c :: rest) = false).
  { intros tail.
    destruct (starts_with (ANSI.ESC :: 91 :: 63 :: tail) (c :: rest)) eqn:E;
      [|reflexivity].
    destruct (starts_with_cursor_seq _ _ E) as (y & x & rest' & Heq & ->).
    injection Heq as -> ->. cbn in Hc. discriminate. }
  unfold ANSI.HIDE_CURSOR, ANSI.SHOW_CURSOR. rewrite !Hno. now apply IH.
Qed.

Lemma cursor_scan_hide (pre tail : js_string) (visible : bool) :
  esc_ok tail = true ->
  cursor_scan visible (pre ++ ANSI.HIDE_CURSOR ++ tail) = false.
Proof.
  intros Hok. revert visible. induction pre as [|c pre IH]; intros visible.
  - cbn [app ANSI.HIDE_CURSOR cursor_scan starts_with ANSI.SHOW_CURSOR].
    cbn. now apply cursor_scan_esc_ok.
  - cbn [app cursor_scan]. apply IH.
Qed.

Lemma visibleSubstring_factor (s : js_string) (start length : Z) :
  exists pre post, s = pre ++ visibleSubstring s start length ++ post.
Proof.
  destruct (visibleSubstring_run s start length)
    as (skipped & rest & Hall & _ & Hres & _).
  cbv zeta in *. exists (concat skipped), (concat rest).
  rewrite Hres, <- !concat_app.
  transitivity (concat (chars s)); [symmetry; apply concat_chars|].
  apply f_equal. exact Hall.
Qed.

Lemma esc_free_visibleSubstring (s : js_string) (start length : Z) :
  esc_free s = true -> esc_free (visibleSubstring s start length) = true.
Proof.
  intros H.
  destruct (visibleSubstring_factor s start length) as (pre & post & Heq).
  rewrite Heq, !esc_free_app in H.
  apply andb_prop in H. destruct H as [_ H].
  apply andb_prop in H. now destruct H.
Qed.

Lemma esc_free_spaces (n : nat) : esc_free (repeat_nat SPACE n) = true.
Proof. induction n as [|n IH]; [reflexivity | exact IH]. Qed.

Lemma esc_free_padToWidth (s : js_string) (target : Z) (padded : js_string) :
  esc_free s = true -> padToWidth s target None = Normal padded ->
  esc_free padded = true.
Proof.
  intros Hs H. rewrite padToWidth_value in H. injection H as <-.
  destruct (getVisibleWidth s >=? target); [exact Hs|].
  rewrite esc_free_app, Hs. apply esc_free_spaces.
Qed.

Lemma esc_free_displayLine (terminalWidth offset : Z) (line shown : js_string) :
  esc_free line = true ->
  displayLine terminalWidth offset line = Normal shown ->
  esc_free shown = true.
Proof.
  intros Hline H. rewrite displayLine_value in H.
  apply (esc_free_padToWidth _ _ _) in H; [exact H|].
  destruct (offset >=? 0).
  - rewrite esc_free_app, esc_free_spaces.
    now apply esc_free_visibleSubstring.
  - now apply esc_free_visibleSubstring.
Qed.

Lemma esc_free_split (sep : code_unit) (s : js_string) :
  esc_free s = true -> Forall (fun piece => esc_free piece = true) (split sep s).
Proof.
  induction s as [|c rest IH]; intros H.
  - repeat constructor.
  - cbn [esc_free forallb] in H. apply andb_prop in H. destruct H as [Hc Hrest].
    specialize (IH Hrest). cbn [split].
    destruct (c =? sep).
    + constructor; [reflexivity | exact IH].
    + destruct (split sep rest) as [|piece pieces].
      * repeat constructor. cbn. now rewrite Hc.
      * inversion IH as [|? ? Hp Hps]; subst. constructor; [|exact Hps].
        cbn [esc_free forallb]. now rewrite Hc.
Qed.

Lemma esc_free_padded_lines (target : Z) (lines paddedLines : list js_string) :
  Forall (fun line => esc_free line = true) lines ->
  map_completion (fun line => padToWidth line target None) lines
  = Normal paddedLines ->
  Forall (fun line => esc_free line = true) paddedLines.
Proof.
  intros Hlines. revert paddedLines.
  induction Hlines as [|line rest Hline Hrest IH]; intros paddedLines H.
  - injection H as <-. constructor.
  - cbn [map_completion] in H.
    destruct (padToWidth line target None) as [padded|e] eqn:Ep;
      [|discriminate].
    cbn [cbind] in H.
    destruct (map_completion (fun line => padToWidth line target None) rest)
      as [paddedRest|e] eqn:Er; [|discriminate].
    injection H as <-. constructor.
    + now apply (esc_free_padToWidth line target).
    + now apply IH.
Qed.

Lemma uint_digits_range (u : Decimal.uint) :
  Forall (fun c => 48 <= c <= 57) (uint_digits u).
Proof. induction u; cbn [uint_digits]; constructor; (lia || assumption). Qed.

Lemma Number_toString_chars (n : Z) :
  Forall (fun c => c <> ANSI.ESC /\ c <> 63) (Number_toString n).
Proof.
  unfold Number_toString.
  assert (H : forall u, Forall (fun c => c <> ANSI.ESC /\ c <> 63)
                          (uint_digits u)).
  { intros u. eapply Forall_impl; [|apply uint_digits_range].
    unfold ANSI.ESC. cbv beta. intros c Hc. lia. }
  destruct (Z.to_int n) as [u|u]; [apply H|].
  constructor; [unfold ANSI.ESC; lia | apply H].
Qed.

Lemma esc_ok_MOVE_UP (n : Z) : esc_ok (ANSI.MOVE_UP n) = true.
Proof.
  unfold ANSI.MOVE_UP.
  assert (Ht : Forall (fun c => c <> ANSI.ESC /\ c <> 63)
                 (Number_toString n ++ [65])).
  { apply Forall_app. split; [apply Number_toString_chars|].
    constructor; [unfold ANSI.ESC; lia | constructor]. }
  assert (Hfree : esc_free (Number_toString n ++ [65]) = true).
  { unfold esc_free. apply forallb_forall. intros c Hc.
    rewrite Forall_forall in Ht. destruct (Ht c Hc) as [Hne _].
    apply negb_true_iff. now apply Z.eqb_neq. }
  destruct (Number_toString n ++ [65]) as [|x t] eqn:E.
  - destruct (Number_toString n); discriminate.
  - change (esc_ok ([ANSI.ESC; 91] ++ x :: t))
      with (negb (x =? 63) && (true && esc_ok (x :: t))).
    inversion Ht as [|? ? [_ Hx] _]; subst.
    apply Z.eqb_neq in Hx. rewrite Hx. cbn [negb andb].
    now apply esc_free_esc_ok.
Qed.

Lemma esc_ok_clear_line (shown : js_string) :
  esc_free shown = true -> esc_ok (ANSI.CLEAR_LINE ++ shown) = true.
Proof.
  intros H. apply esc_ok_app; [reflexivity | now apply esc_free_esc_ok].
Qed.

Section Emits.

Variable sink : world -> js_string -> bool.

Lemma emits_ret {A : Type} (a : A) : emits_esc_ok (ret a).
Proof. intros w. exists []. now rewrite app_nil_r. Qed.

Lemma emits_sleep (ms : Z) : emits_esc_ok (sleep ms).
Proof. intros w. exists [EvSleep ms]. split; reflexivity. Qed.

Lemma emits_write (chunk : js_string) :
  esc_ok chunk = true -> emits_esc_ok (write sink chunk).
Proof.
  intros H w. unfold write. destruct (sink w chunk); cbn [snd].
  - exists []. now rewrite app_nil_r.
  - exists [EvWrite chunk]. split; [reflexivity|].
    cbn [output_stream]. now rewrite app_nil_r.
Qed.

Lemma emits_bind {A B : Type} (m : IO A) (k : A -> IO B) :
  emits_esc_ok m ->
  (forall a w, fst (m w) = Normal a -> emits_esc_ok (k a)) ->
  emits_esc_ok (bind m k).
Proof.
  intros Hm Hk w. unfold bind. destruct (Hm w) as (a1 & Hw1 & Hok1).
  specialize (Hk) as Hk'.
  destruct (m w) as [[a|e] w1] eqn:E; cbn [snd] in Hw1.
  - destruct (Hk' a w (f_equal fst E) w1) as (a2 & Hw2 & Hok2).
    exists (a1 ++ a2). rewrite Hw2, Hw1, app_assoc. split; [reflexivity|].
    rewrite output_stream_app. now apply esc_ok_app.
  - exists a1. cbn [snd]. now split.
Qed.

Lemma emits_draw_lines (terminalWidth offset bannerHeight : Z)
  (lines : list js_string) :
  Forall (fun line => esc_free line = true) lines ->
  forall i,
    emits_esc_ok (draw_lines sink terminalWidth offset bannerHeight i lines).
Proof.
  induction 1 as [|line rest Hline Hrest IH]; intros i; cbn [draw_lines].
  - apply emits_ret.
  - apply emits_bind.
    { intros w. exists []. now rewrite app_nil_r. }
    intros shown w Hshown. unfold lift in Hshown. cbn [fst] in Hshown.
    apply emits_bind.
    { apply emits_write, esc_ok_clear_line.
      now apply (esc_free_displayLine terminalWidth offset line). }
    intros _ _ _. apply emits_bind; [|intros _ _ _; apply IH].
    destruct (i <? bannerHeight - 1);
      [now apply emits_write | apply emits_ret].
Qed.

Lemma emits_tick (speed terminalWidth bannerHeight : Z)
  (paddedLines : list js_string) (frame : Z) :
  Forall (fun line => esc_free line = true) paddedLines ->
  emits_esc_ok (tick sink speed terminalWidth bannerHeight paddedLines frame).
Proof.
  intros Hlines. unfold tick.
  apply emits_bind; [now apply emits_draw_lines | intros _ _ _].
  apply emits_bind; [|intros _ _ _].
  { destruct (bannerHeight >? 1);
      [apply emits_write, esc_ok_MOVE_UP | apply emits_ret]. }
  apply emits_bind; [now apply emits_write | intros _ _ _].
  apply emits_sleep.
Qed.

Lemma emits_animation_loop (n : nat) (speed terminalWidth bannerHeight : Z)
  (paddedLines : list js_string) (totalFrames : Z) :
  Forall (fun line => esc_free line = true) paddedLines ->
  forall frame,
    emits_esc_ok (animation_loop sink n speed terminalWidth bannerHeight
                    paddedLines totalFrames frame).
Proof.
  intros Hlines. induction n as [|n IH]; intros frame; cbn [animation_loop].
  - apply emits_ret.
  - apply emits_bind; [|intros next _ _; apply IH].
    unfold animation_iteration.
    apply emits_bind; [now apply emits_tick | intros _ _ _; apply emits_ret].
Qed.

End Emits.

(** X11. While the endless animation is running the cursor stays hidden:
    after any number of completed passes over a banner that holds no
    escape character, the last cursor sequence the terminal has read is
    the hide-cursor sequence. *)
Theorem cursor_hidden_while_running (sink : world -> js_string -> bool)
  (columns : option Z) (n : nat) (bannerText : js_string)
  (speed terminalWidth : Z) (w0 : world) :
  esc_free bannerText = true ->
  let run := runAnimation sink columns n bannerText
               {| speed_opt := Some speed;
                  terminalWidth_opt := Some terminalWidth |} w0 in
  (exists frame, fst run = Normal frame) -> cursor_visible (snd run) = false.
Proof.
  intros Hfree run. subst run.
  destruct (runAnimation_shape sink columns n bannerText speed terminalWidth w0)
    as (paddedLines & Hpad & ->).
  destruct (sink w0 ANSI.HIDE_CURSOR); [intros [frame H]; discriminate|].
  assert (Hlines : Forall (fun line => esc_free line = true) paddedLines).
  { eapply esc_free_padded_lines; [|exact Hpad]. now apply esc_free_split. }
  unfold loop_finally.
  destruct (emits_animation_loop sink n speed terminalWidth
              (Z.of_nat (length (split NEWLINE bannerText))) paddedLines
              (terminalWidth + maxBannerVisualWidth bannerText) Hlines 0
              (w0 ++ [EvWrite ANSI.HIDE_CURSOR])) as (added & Hadded & Hok).
  destruct (animation_loop sink n speed terminalWidth _ paddedLines _ 0 _)
    as [[frame|e] w1]; cbn [snd] in Hadded.
  - intros _. cbn [snd]. subst w1. unfold cursor_visible.
    rewrite !output_stream_app. cbn [output_stream].
    rewrite app_nil_r, <- app_assoc. now apply cursor_scan_hide.
  - intros [frame H]. destruct (cleanup sink w1) as [[[]|e'] w2]; discriminate.
Qed.

Lemma cursor_hidden_while_running_witness :
  let run := runAnimation accept_all None 4 [97; 98; 10; 99]
               {| speed_opt := Some 5; terminalWidth_opt := Some 3 |} [] in
  fst run = Normal 4 /\ cursor_visible (snd run) = false.
Proof.
  cbv zeta. split; [reflexivity|].
  apply (cursor_hidden_while_running accept_all None 4 [97; 98; 10; 99] 5 3 []).
  - reflexivity.
  - exists 4. reflexivity.
Defined.

(** ** slack.ts *)

Lemma join_cons (sep piece : js_string) (rest : list js_string) :
  rest <> [] -> join sep (piece :: rest) = piece ++ sep ++ join sep rest.
Proof. destruct rest; [congruence | reflexivity]. Qed.

Lemma join_snoc (sep : js_string) (pieces : list js_string) (last : js_string) :
  pieces <> [] -> join sep (pieces ++ [last]) = join sep pieces ++ sep ++ last.
Proof.
  induction pieces as [|piece rest IH]; intros Hne; [congruence|].
  destruct rest as [|piece' rest'].
  - reflexivity.
  - change ((piece :: piece' :: rest') ++ [last])
      with (piece :: ((piece' :: rest') ++ [last])).
    rewrite join_cons by (destruct rest'; discriminate).
    rewrite IH by discriminate.
    rewrite (join_cons sep piece (piece' :: rest')) by discriminate.
    now rewrite <- !app_assoc.
Qed.

Lemma join_snoc_glue (sep : js_string) (pieces : list js_string)
  (cur line : js_string) :
  join sep (pieces ++ [cur ++ sep ++ line])
  = join sep (pieces ++ [cur]) ++ sep ++ line.
Proof.
  induction pieces as [|piece rest IH]; [reflexivity|].
  change ((piece :: rest) ++ [cur ++ sep ++ line])
    with (piece :: (rest ++ [cur ++ sep ++ line])).
  change ((piece :: rest) ++ [cur]) with (piece :: (rest ++ [cur])).
  rewrite !join_cons by (destruct rest; discriminate).
  rewrite IH. now rewrite <- !app_assoc.
Qed.

(** [split] and [join] with the same separator undo each other. *)
Lemma join_split (sep : code_unit) (s : js_string) :
  join [sep] (split sep s) = s.
Proof.
  induction s as [|c rest IH]; [reflexivity|].
  pose proof (split_nonempty sep rest) as Hne. cbn [split].
  destruct (c =? sep) eqn:E.
  - apply Z.eqb_eq in E. subst c.
    rewrite join_cons by assumption. now rewrite IH.
  - destruct (split sep rest) as [|piece pieces]; [congruence|].
    destruct pieces as [|piece' pieces'].
    + cbn [join] in *. now rewrite IH.
    + rewrite join_cons by discriminate.
      rewrite join_cons in IH by discriminate.
      cbn [app]. f_equal. exact IH.
Qed.

Lemma validate_created (texts : list js_string) :
  Slack.validate_blocks (map Slack.createTextBlock texts) = true.
Proof. induction texts as [|t rest IH]; [reflexivity | exact IH]. Qed.

(** What the loop of [toSlackFormat] keeps true of its two variables
    after the lines [done]: every block was made by [createTextBlock] from
    a non-empty text, and when no line is empty the block texts and the
    current text are the lines so far, regrouped. *)
Lemma toSlackFormat_loop (done : list js_string) :
  let state := fold_left Slack.toSlackFormat_step done ([], []) in
  exists texts,
    fst state = map Slack.createTextBlock texts /\
    Forall (fun t => truthy t = true) texts /\
    ((forall line, In line done ->
        Z.of_nat (length line) <= Slack.SLACK_TEXT_LIMIT) ->
     Forall (fun t => Z.of_nat (length t) <= Slack.SLACK_TEXT_LIMIT)
       (texts ++ [snd state])) /\
    (Forall (fun line => truthy line = true) done -> done <> [] ->
     truthy (snd state) = true /\
     join [NEWLINE] (texts ++ [snd state]) = join [NEWLINE] done) /\
    (done = [] -> texts = [] /\ snd state = []).
Proof.
  induction done as [|line done IH] using rev_ind; cbv zeta.
  - exists []. cbn [fold_left fst snd map app].
    split; [reflexivity|]. split; [constructor|]. split; [|split].
    + intros _. constructor; [|constructor].
      unfold Slack.SLACK_TEXT_LIMIT. simpl. lia.
    + intros _ H. congruence.
    + intros _. split; reflexivity.
  - rewrite fold_left_app. cbn [fold_left].
    cbv zeta in IH.
    destruct IH as (texts & Hblocks & Hne & Hlimit & Hjoin & Hinit).
    destruct (fold_left Slack.toSlackFormat_step done ([], []))
      as [blocks cur]. cbn [fst snd] in *.
    unfold Slack.toSlackFormat_step, Slack.formatLineForSlack.
    assert (Hlimit' :
              (forall l, In l (done ++ [line]) ->
                 Z.of_nat (length l) <= Slack.SLACK_TEXT_LIMIT) ->
              Forall (fun t => Z.of_nat (length t) <= Slack.SLACK_TEXT_LIMIT)
                (texts ++ [cur]) /\
              Z.of_nat (length line) <= Slack.SLACK_TEXT_LIMIT).
    { intros H. split.
      - apply Hlimit. intros l Hl. apply H, in_or_app. now left.
      - apply H, in_or_app. right. now left. }
    assert (Hjoin' :
              Forall (fun l => truthy l = true) (done ++ [line]) ->
              truthy line = true /\
              (done <> [] ->
               truthy cur = true /\
               join [NEWLINE] (texts ++ [cur]) = join [NEWLINE] done)).
    { intros H. apply Forall_app in H. destruct H as [Hd Hl].
      inversion Hl; subst. split; [assumption|].
      intros Hdn. now apply Hjoin. }
    assert (Hlast : done ++ [line] = [] -> False)
      by (destruct done; discriminate).
    destruct (Z.of_nat (length cur) + Z.of_nat (length line) + 1
              >? Slack.SLACK_TEXT_LIMIT) eqn:Eover.
    + destruct (truthy cur) eqn:Ecur.
      * exists (texts ++ [cur]). cbn [fst snd].
        split; [now rewrite map_app, Hblocks|].
        split; [apply Forall_app; split; [assumption | now constructor]|].
        split; [|split].
        -- intros H. destruct (Hlimit' H) as [Ht Hl].
           apply Forall_app. split; [assumption | now constructor].
        -- intros H _. destruct (Hjoin' H) as (Hl & Hd).
           split; [assumption|].
           destruct done as [|d done'].
           ++ destruct (Hinit eq_refl) as [_ ->]. discriminate.
           ++ destruct Hd as [_ Hj]; [discriminate|].
              rewrite join_snoc by (destruct texts; discriminate).
              rewrite Hj.
              rewrite (join_snoc [NEWLINE] (d :: done') line) by discriminate.
              reflexivity.
        -- intros H. destruct (Hlast H).
      * exists texts. cbn [fst snd]. split; [assumption|].
        split; [assumption|]. split; [|split].
        -- intros H. destruct (Hlimit' H) as [Ht Hl].
           apply Forall_app in Ht. destruct Ht as [Ht _].
           apply Forall_app. split; [assumption | now constructor].
        -- intros H _. destruct (Hjoin' H) as (Hl & Hd).
           split; [assumption|].
           destruct done as [|d done'].
           ++ destruct (Hinit eq_refl) as [-> _]. reflexivity.
           ++ destruct Hd as [Hc _]; [discriminate|]. congruence.
        -- intros H. destruct (Hlast H).
    + exists texts. cbn [fst snd]. split; [assumption|].
      split; [assumption|]. split; [|split].
      * intros H. destruct (Hlimit' H) as [Ht Hl].
        apply Forall_app in Ht. destruct Ht as [Ht _].
        apply Forall_app. split; [assumption|]. constructor; [|constructor].
        rewrite !length_app. destruct (truthy cur); cbn [length]; lia.
      * intros H _. destruct (Hjoin' H) as (Hl & Hd).
        destruct done as [|d done'].
        -- destruct (Hinit eq_refl) as [-> ->]. cbn. split; [assumption|].
           reflexivity.
        -- destruct Hd as [Hc Hj]; [discriminate|]. rewrite Hc. split.
           ++ destruct cur; [discriminate | reflexivity].
           ++ rewrite join_snoc_glue, Hj.
              rewrite (join_snoc [NEWLINE] (d :: done') line) by discriminate.
              reflexivity.
      * intros H. destruct (Hlast H).
Qed.

Lemma toSlackFormat_texts (result : BannerResult) :
  let lines := split NEWLINE (text result) in
  exists texts,
    Slack.blocks (Slack.toSlackFormat result)
    = map Slack.createTextBlock texts /\
    Forall (fun t => truthy t = true) texts /\
    ((forall line, In line lines ->
        Z.of_nat (length line) <= Slack.SLACK_TEXT_LIMIT) ->
     Forall (fun t => Z.of_nat (length t) <= Slack.SLACK_TEXT_LIMIT) texts) /\
    (Forall (fun line => truthy line = true) lines ->
     join [NEWLINE] texts = text result).
Proof.
  cbv zeta. unfold Slack.toSlackFormat.
  destruct (toSlackFormat_loop (split NEWLINE (text result)))
    as (texts & Hblocks & Hne & Hlimit & Hjoin & _).
  destruct (fold_left Slack.toSlackFormat_step (split NEWLINE (text result))
              ([], [])) as [blocks cur].
  cbn [fst snd Slack.blocks] in *.
  destruct (truthy cur) eqn:Ecur.
  - exists (texts ++ [cur]).
    split; [now rewrite map_app, Hblocks|].
    split; [apply Forall_app; split; [assumption | now constructor]|].
    split; [exact Hlimit|].
    intros Hlines. rewrite <- (join_split NEWLINE (text result)).
    apply Hjoin; [assumption | apply split_nonempty].
  - exists texts. split; [assumption|]. split; [assumption|]. split.
    + intros H. specialize (Hlimit H). apply Forall_app in Hlimit.
      now destruct Hlimit.
    + intros Hlines.
      destruct (Hjoin Hlines (split_nonempty NEWLINE (text result)))
        as [Hc _].
      congruence.
Qed.

(** X13. Every block of [toSlackFormat] is a section block made from a
    non-empty text, and no block text is longer than the limit of 3000
    code units as long as no single line of the banner is. *)
Theorem slack_blocks_within_limit (result : BannerResult) :
  (forall line, In line (split NEWLINE (text result)) ->
     Z.of_nat (length line) <= 3000) ->
  exists texts,
    Slack.blocks (Slack.toSlackFormat result)
    = map Slack.createTextBlock texts /\
    Forall (fun t => 1 <= Z.of_nat (length t) <= 3000) texts.
Proof.
  intros Hlines.
  destruct (toSlackFormat_texts result) as (texts & Hb & Hne & Hlimit & _).
  exists texts. split; [exact Hb|].
  specialize (Hlimit Hlines). rewrite Forall_forall in *.
  intros t Ht. specialize (Hne t Ht). specialize (Hlimit t Ht).
  unfold Slack.SLACK_TEXT_LIMIT in Hlimit.
  destruct t; [discriminate|]. cbn [length] in *. lia.
Qed.

Lemma slack_blocks_within_limit_witness :
  exists texts,
    Slack.blocks (Slack.toSlackFormat {| text := [97; 98; 10; 99] |})
    = map Slack.createTextBlock texts /\
    Forall (fun t => 1 <= Z.of_nat (length t) <= 3000) texts.
Proof.
  apply slack_blocks_within_limit. cbn.
  intros line [<- | [<- | []]]; cbn; lia.
Defined.

(** X14. When no line of the banner is empty, [toSlackFormat] only
    regroups the lines: the texts of its blocks, joined by line feeds,
    are the banner text. *)
Theorem slack_round_trip (result : BannerResult) :
  Forall (fun line => truthy line = true) (split NEWLINE (text result)) ->
  exists texts,
    Slack.blocks (Slack.toSlackFormat result)
    = map Slack.createTextBlock texts /\
    join [NEWLINE] texts = text result.
Proof.
  intros Hlines.
  destruct (toSlackFormat_texts result) as (texts & Hb & _ & _ & Hjoin).
  exists texts. split; [exact Hb | now apply Hjoin].
Qed.

Lemma slack_round_trip_witness :
  exists texts,
    Slack.blocks (Slack.toSlackFormat {| text := [97; 98; 10; 99] |})
    = map Slack.createTextBlock texts /\
    join [NEWLINE] texts = [97; 98; 10; 99].
Proof.
  apply (slack_round_trip {| text := [97; 98; 10; 99] |}).
  repeat constructor.
Defined.

(** X15. [toSlackFormat] drops a blank first line: with the current text
    still empty no separator is added, so a banner that starts with a
    line feed gives the message of the banner without it. *)
Theorem slack_drops_leading_blank_line (t : js_string) :
  Slack.toSlackFormat {| text := NEWLINE :: t |}
  = Slack.toSlackFormat {| text := t |}.
Proof.
  unfold Slack.toSlackFormat. cbn [text split].
  rewrite Z.eqb_refl. reflexivity.
Qed.

(** X16. The messages that [toSlackFormat] and [toSlackRichText] build
    pass [validateSlackMessage]. *)
Theorem slack_messages_validate (result : BannerResult) :
  Slack.validateSlackMessage (Slack.toSlackFormat result) = true /\
  Slack.validateSlackMessage (Slack.toSlackRichText result) = true.
Proof.
  split; [|reflexivity].
  destruct (toSlackFormat_texts result) as (texts & Hb & _).
  unfold Slack.validateSlackMessage. rewrite Hb. apply validate_created.
Qed.

(** X17. [toSlackRichText] builds one rich-text block with one
    preformatted element per line of the banner, each holding that line;
    the element texts joined by line feeds are the banner text. *)
Theorem slack_rich_text_round_trip (result : BannerResult) :
  exists elements,
    Slack.blocks (Slack.toSlackRichText result)
    = [Slack.RichTextBlock (js "rich_text") elements] /\
    length elements = length (split NEWLINE (text result)) /\
    map (fun p => map Slack.element_text (Slack.preformatted_elements p))
      elements
    = map (fun line => [line]) (split NEWLINE (text result)) /\
    join [NEWLINE]
      (map (fun p =>
              concat (map Slack.element_text (Slack.preformatted_elements p)))
         elements)
    = text result.
Proof.
  eexists. split; [reflexivity|]. split; [apply length_map|].
  rewrite !map_map. cbn [Slack.preformatted_elements map Slack.element_text
                         concat].
  split; [reflexivity|].
  erewrite map_ext; [|intros line; apply app_nil_r].
  rewrite map_id. apply join_split.
Qed.

(** ** themes.ts *)

Lemma to_number_exact (z : Z) :
  Z.abs z < 2 ^ 53 -> Themes.to_number z = Themes.Finite z.
Proof.
  intros Hz. unfold Themes.to_number, Themes.round53. cbv zeta.
  destruct (Z.abs z <? 2 ^ 53) eqn:E.
  - destruct (2 ^ 1024 <=? Z.abs z) eqn:E'; [|reflexivity].
    apply Z.leb_le in E'.
    assert (2 ^ 53 < 2 ^ 1024) by (apply Z.pow_lt_mono_r; lia).
    lia.
  - apply Z.ltb_ge in E. lia.
Qed.

Lemma github_hash_exact (row col v : Z) :
  Z.abs row <= 2 ^ 46 -> Z.abs col <= 2 ^ 46 -> Z.abs v <= 2 ^ 46 ->
  Themes.rem
    (Themes.add
       (Themes.add (Themes.mul (Themes.to_number row) (Themes.Finite 31))
          (Themes.mul (Themes.to_number col) (Themes.Finite 17)))
       (Themes.to_number v))
    (Themes.Finite 100)
  = Themes.Finite (Z.rem (row * 31 + col * 17 + v) 100).
Proof.
  assert (H46 : 2 ^ 46 = 70368744177664) by reflexivity.
  assert (H53 : 2 ^ 53 = 9007199254740992) by reflexivity.
  rewrite H46. intros Hr Hc Hv.
  rewrite (to_number_exact row), (to_number_exact col), (to_number_exact v)
    by (rewrite H53; lia).
  cbn [Themes.mul].
  rewrite (to_number_exact (row * 31)), (to_number_exact (col * 17))
    by (rewrite H53; lia).
  cbn [Themes.add].
  rewrite (to_number_exact (row * 31 + col * 17)) by (rewrite H53; lia).
  cbn [Themes.add].
  rewrite (to_number_exact (row * 31 + col * 17 + v)) by (rewrite H53; lia).
  reflexivity.
Qed.

(** X18. The GitHub intensity is always one of the four foreground levels
    1 to 4, never the background level 0, for all integer arguments, also
    those that a double rounds or that overflow. Where row, column and
    seed are at most 2^45 in absolute value (so that every intermediate
    result is an integer a double holds exactly) and the hash argument is
    not negative, the pattern repeats every 100 columns and every 100
    rows. *)
Theorem github_intensity_range (row col : Z) (seed : option Z) :
  let v := match seed with Some v => v | None => 0 end in
  1 <= Themes.getGitHubIntensity row col seed <= 4 /\
  (Z.abs row <= 2 ^ 45 -> Z.abs col <= 2 ^ 45 -> Z.abs v <= 2 ^ 45 ->
   0 <= row * 31 + col * 17 + v ->
   Themes.getGitHubIntensity row (col + 100) seed
   = Themes.getGitHubIntensity row col seed /\
   Themes.getGitHubIntensity (row + 100) col seed
   = Themes.getGitHubIntensity row col seed).
Proof.
  intros v. split.
  - unfold Themes.getGitHubIntensity. cbv zeta.
    destruct (Themes.lt _ (Themes.Finite 20)); [lia|].
    destruct (Themes.lt _ (Themes.Finite 45)); [lia|].
    destruct (Themes.lt _ (Themes.Finite 75)); lia.
  - assert (H45 : 2 ^ 45 = 35184372088832) by reflexivity.
    assert (H46 : 2 ^ 46 = 70368744177664) by reflexivity.
    rewrite H45. intros Hr Hc Hv Hpos.
    assert (Hseed : match seed with
                    | Some v => Themes.to_number v
                    | None => Themes.Finite 0
                    end = Themes.to_number v).
    { subst v. destruct seed as [s|]; reflexivity. }
    unfold Themes.getGitHubIntensity. cbv zeta. rewrite Hseed.
    rewrite !github_hash_exact by (rewrite H46; lia).
    assert (Hcol : Z.rem (row * 31 + (col + 100) * 17 + v) 100
                   = Z.rem (row * 31 + col * 17 + v) 100).
    { rewrite !Z.rem_mod_nonneg by lia.
      replace (row * 31 + (col + 100) * 17 + v)
        with (row * 31 + col * 17 + v + 17 * 100) by ring.
      apply Z_mod_plus_full. }
    assert (Hrow : Z.rem ((row + 100) * 31 + col * 17 + v) 100
                   = Z.rem (row * 31 + col * 17 + v) 100).
    { rewrite !Z.rem_mod_nonneg by lia.
      replace ((row + 100) * 31 + col * 17 + v)
        with (row * 31 + col * 17 + v + 31 * 100) by ring.
      apply Z_mod_plus_full. }
    now rewrite Hcol, Hrow.
Qed.

Lemma github_intensity_range_witness :
  Themes.getGitHubIntensity 2 103 None = Themes.getGitHubIntensity 2 3 None.
Proof.
  apply (proj2 (github_intensity_range 2 3 None)); cbv zeta; simpl; lia.
Defined.

(** Above 2^53 the products are rounded, and the level is that of the
    rounded hash: rows 2^53 - 101 and 2^53 - 1, 100 apart, get levels 1
    and 2 (hashes 16 and 20), where exact arithmetic has hash 21 for
    both; and a row whose product overflows gets level 4, the hash being
    NaN and every comparison with NaN false. *)
Example github_intensity_of_rounded_hash :
  Themes.getGitHubIntensity (2 ^ 53 - 101) 0 None = 1 /\
  Themes.getGitHubIntensity (2 ^ 53 - 1) 0 None = 2 /\
  Themes.getGitHubIntensity (2 ^ 1023) 0 None = 4.
Proof. vm_compute. repeat split. Qed.

(** ** output.ts *)

Lemma trimStart_Forall (P : code_unit -> Prop) (s : js_string) :
  Forall P s -> Forall P (trimStart s).
Proof.
  induction 1 as [|c rest Hc Hrest IH]; [constructor|].
  cbn [trimStart]. destruct (isWhiteSpace c); [exact IH | now constructor].
Qed.

Lemma trimEnd_Forall (P : code_unit -> Prop) (s : js_string) :
  Forall P s -> Forall P (trimEnd s).
Proof.
  induction 1 as [|c rest Hc Hrest IH]; [constructor|].
  cbn [trimEnd]. destruct (trimEnd rest) as [|k kept].
  - destruct (isWhiteSpace c); [constructor | now repeat constructor].
  - now constructor.
Qed.

Lemma trimStart_length (s : js_string) :
  (length (trimStart s) <= length s)%nat.
Proof.
  induction s as [|c rest IH]; [reflexivity|].
  cbn [trimStart]. destruct (isWhiteSpace c); cbn [length]; lia.
Qed.

Lemma trimEnd_length (s : js_string) : (length (trimEnd s) <= length s)%nat.
Proof.
  induction s as [|c rest IH]; [reflexivity|].
  cbn [trimEnd]. destruct (trimEnd rest) as [|k kept].
  - destruct (isWhiteSpace c); cbn [length]; lia.
  - cbn [length] in *. lia.
Qed.

Lemma trimStart_head (s : js_string) (c : code_unit) (rest : js_string) :
  trimStart s = c :: rest -> isWhiteSpace c = false.
Proof.
  induction s as [|a s IH]; [discriminate|].
  cbn [trimStart]. destruct (isWhiteSpace a) eqn:E; [exact IH|].
  intros H. injection H as <- _. exact E.
Qed.

Lemma trimEnd_head (s : js_string) (c : code_unit) (rest : js_string) :
  trimEnd s = c :: rest -> exists rest', s = c :: rest'.
Proof.
  destruct s as [|a s]; [discriminate|].
  cbn [trimEnd]. destruct (trimEnd s) as [|k kept].
  - destruct (isWhiteSpace a); [discriminate|].
    intros H. injection H as <- _. now exists s.
  - intros H. injection H as <- _. now exists s.
Qed.

Lemma trimEnd_last (s init : js_string) (c : code_unit) :
  trimEnd s = init ++ [c] -> isWhiteSpace c = false.
Proof.
  revert init. induction s as [|a s IH]; intros init.
  - destruct init; discriminate.
  - cbn [trimEnd]. destruct (trimEnd s) as [|k kept] eqn:E.
    + destruct (isWhiteSpace a) eqn:Ea.
      * destruct init; discriminate.
      * intros H. destruct init as [|i [|i' init']]; try discriminate.
        injection H as <-. exact Ea.
    + intros H. destruct init as [|i init'].
      * discriminate.
      * injection H as _ H. now apply (IH init').
Qed.

Lemma remove_dot_dot_cons (c d : code_unit) (rest : js_string) :
  Output.remove_dot_dot (c :: d :: rest)
  = if (c =? 46) && (d =? 46) then Output.remove_dot_dot rest
    else c :: Output.remove_dot_dot (d :: rest).
Proof. reflexivity. Qed.

Lemma remove_dot_dot_length (s : js_string) :
  (length (Output.remove_dot_dot s) <= length s)%nat.
Proof.
  assert (both : (length (Output.remove_dot_dot s) <= length s)%nat /\
                 forall c, (length (Output.remove_dot_dot (c :: s))
                            <= S (length s))%nat).
  { induction s as [|d rest [IH1 IH2]].
    - split; [reflexivity | intros c; reflexivity].
    - split; [apply IH2|]. intros c. rewrite remove_dot_dot_cons.
      destruct ((c =? 46) && (d =? 46)).
      + cbn [length]. lia.
      + specialize (IH2 d). cbn [length] in *. lia. }
  exact (proj1 both).
Qed.

Lemma remove_leading_dots_Forall (P : code_unit -> Prop) (s : js_string) :
  Forall P s -> Forall P (Output.remove_leading_dots s).
Proof.
  induction 1 as [|c rest Hc Hrest IH]; [constructor|].
  cbn [Output.remove_leading_dots].
  destruct (c =? 46); [exact IH | now constructor].
Qed.

Lemma remove_leading_dots_length (s : js_string) :
  (length (Output.remove_leading_dots s) <= length s)%nat.
Proof.
  induction s as [|c rest IH]; [reflexivity|].
  cbn [Output.remove_leading_dots]. destruct (c =? 46); cbn [length]; lia.
Qed.

Lemma remove_forbidden_Forall (s : js_string) :
  Forall (fun c => Output.forbidden c = false) (Output.remove_forbidden s).
Proof.
  apply Forall_forall. intros c Hc. unfold Output.remove_forbidden in Hc.
  apply filter_In in Hc. destruct Hc as [_ Hc]. now apply negb_true_iff.
Qed.

Lemma remove_forbidden_length (s : js_string) :
  (length (Output.remove_forbidden s) <= length s)%nat.
Proof. apply filter_length_le. Qed.

(** X19. A sanitized file name holds none of the characters of the
    forbidden class, has no white space at either end, and is never
    longer than the name it was made from. *)
Theorem sanitize_output_clean (filename : js_string) :
  let clean := Output.sanitizeFilename filename in
  Forall (fun c => Output.forbidden c = false) clean /\
  (forall c rest, clean = c :: rest -> isWhiteSpace c = false) /\
  (forall init c, clean = init ++ [c] -> isWhiteSpace c = false) /\
  (length clean <= length filename)%nat.
Proof.
  cbv zeta. unfold Output.sanitizeFilename, trim.
  set (step3 := Output.remove_leading_dots
                  (Output.remove_forbidden (Output.remove_dot_dot filename))).
  split; [|split; [|split]].
  - apply trimEnd_Forall, trimStart_Forall.
    apply remove_leading_dots_Forall, remove_forbidden_Forall.
  - intros c rest H. destruct (trimEnd_head _ _ _ H) as [rest' H'].
    now apply (trimStart_head step3 c rest').
  - intros init c H. now apply (trimEnd_last (trimStart step3) init).
  - pose proof (trimEnd_length (trimStart step3)).
    pose proof (trimStart_length step3).
    pose proof (remove_leading_dots_length
                  (Output.remove_forbidden (Output.remove_dot_dot filename))).
    pose proof (remove_forbidden_length (Output.remove_dot_dot filename)).
    pose proof (remove_dot_dot_length filename).
    subst step3. lia.
Qed.

Lemma sanitize_output_clean_witness :
  Output.sanitizeFilename (js " a<b ") = [97; 98] /\
  isWhiteSpace 97 = false.
Proof.
  split; [reflexivity|].
  exact (proj1 (proj2 (sanitize_output_clean (js " a<b "))) 97 [98] eq_refl).
Defined.

Lemma trimEnd_keep (s : js_string) (c : code_unit) :
  isWhiteSpace c = false -> trimEnd (s ++ [c]) = s ++ [c].
Proof.
  intros Hc. induction s as [|a s IH].
  - cbn. now rewrite Hc.
  - cbn [app trimEnd]. rewrite IH. destruct s; reflexivity.
Qed.

Lemma trimStart_keep (c : code_unit) (rest : js_string) :
  isWhiteSpace c = false -> trimStart (c :: rest) = c :: rest.
Proof. intros Hc. cbn. now rewrite Hc. Qed.

Lemma remove_forbidden_keep (s : js_string) :
  Forall (fun c => Output.forbidden c = false) s ->
  Output.remove_forbidden s = s.
Proof.
  induction 1 as [|c rest Hc Hrest IH]; [reflexivity|].
  unfold Output.remove_forbidden in *. cbn [filter]. rewrite Hc. cbn [negb].
  now rewrite IH.
Qed.

Lemma remove_dot_dot_keep (s : js_string) :
  Output.has_dot_dot s = false -> Output.remove_dot_dot s = s.
Proof.
  induction s as [|c rest IH]; [reflexivity|].
  destruct rest as [|d rest']; [reflexivity|].
  intros H. rewrite remove_dot_dot_cons.
  change (Output.has_dot_dot (c :: d :: rest'))
    with (((c =? 46) && (d =? 46)) || Output.has_dot_dot (d :: rest')) in H.
  apply orb_false_iff in H. destruct H as [Hcd Hrest].
  rewrite Hcd. now rewrite IH.
Qed.

Lemma plain_parts (c : code_unit) :
  Output.plain c = true ->
  (c =? 46) = false /\ Output.forbidden c = false /\ isWhiteSpace c = false.
Proof.
  unfold Output.plain. intros H.
  apply andb_prop in H. destruct H as [H Hw].
  apply andb_prop in H. destruct H as [Hd Hf].
  repeat split; now apply negb_true_iff.
Qed.

Lemma has_dot_dot_plain_app (p tail : js_string) :
  Forall (fun c => Output.plain c = true) p ->
  Output.has_dot_dot (p ++ tail) = Output.has_dot_dot tail.
Proof.
  induction 1 as [|c rest Hc Hrest IH]; [reflexivity|].
  destruct (plain_parts c Hc) as (Hd & _ & _).
  cbn [app]. destruct (rest ++ tail) as [|d more] eqn:E.
  - destruct rest; [|discriminate]. cbn in E. subst tail. reflexivity.
  - change (Output.has_dot_dot (c :: d :: more))
      with (((c =? 46) && (d =? 46)) || Output.has_dot_dot (d :: more)).
    rewrite Hd. cbn [andb orb]. exact IH.
Qed.

(** X20. The sanitizer does not promise a name free of two dots in a row:
    the second pass can bring two dots together after the first pass has
    looked for them. For every non-empty stem of plain characters,
    sanitizing the stem followed by dot, less-than sign, dot gives the
    stem followed by two dots. *)
Theorem sanitize_keeps_dot_dot (stem : js_string) :
  stem <> [] -> Forall (fun c => Output.plain c = true) stem ->
  Output.sanitizeFilename (stem ++ [46; 60; 46]) = stem ++ [46; 46].
Proof.
  intros Hne Hplain. unfold Output.sanitizeFilename.
  rewrite remove_dot_dot_keep
    by (now rewrite has_dot_dot_plain_app).
  assert (Hf : Forall (fun c => Output.forbidden c = false) stem).
  { eapply Forall_impl; [|exact Hplain]. intros c Hc.
    now destruct (plain_parts c Hc) as (_ & Hf & _). }
  unfold Output.remove_forbidden. rewrite filter_app.
  fold (Output.remove_forbidden stem). rewrite remove_forbidden_keep by assumption.
  change (filter (fun c => negb (Output.forbidden c)) [46; 60; 46])
    with [46; 46].
  destruct stem as [|c rest]; [congruence|].
  inversion Hplain as [|? ? Hc _]; subst.
  destruct (plain_parts c Hc) as (Hd & _ & Hw).
  cbn [app Output.remove_leading_dots]. rewrite Hd.
  unfold trim. rewrite trimStart_keep by assumption.
  replace (c :: rest ++ [46; 46]) with ((c :: rest ++ [46]) ++ [46])
    by (cbn [app]; now rewrite <- app_assoc).
  now rewrite trimEnd_keep.
Qed.

Lemma sanitize_keeps_dot_dot_witness :
  Output.sanitizeFilename (js "a" ++ [46; 60; 46]) = js "a" ++ [46; 46].
Proof.
  apply sanitize_keeps_dot_dot; [discriminate | repeat constructor].
Defined.

(** X21. A name that is already clean comes back unchanged: no two dots
    in a row, no forbidden character, no dot or white space in front, no
    white space at the end. *)
Theorem sanitize_identity (filename : js_string) :
  Output.has_dot_dot filename = false ->
  Forall (fun c => Output.forbidden c = false) filename ->
  (forall c rest, filename = c :: rest ->
                  c <> 46 /\ isWhiteSpace c = false) ->
  (forall init c, filename = init ++ [c] -> isWhiteSpace c = false) ->
  Output.sanitizeFilename filename = filename.
Proof.
  intros Hdots Hforbidden Hhead Hlast. unfold Output.sanitizeFilename.
  rewrite remove_dot_dot_keep, remove_forbidden_keep by assumption.
  destruct filename as [|c rest]; [reflexivity|].
  destruct (Hhead c rest eq_refl) as [Hc Hw].
  apply Z.eqb_neq in Hc. cbn [Output.remove_leading_dots]. rewrite Hc.
  unfold trim. rewrite trimStart_keep by assumption.
  destruct (exists_last (l := c :: rest)) as (init & last & Heq);
    [discriminate|].
  rewrite Heq. apply trimEnd_keep. now apply (Hlast init).
Qed.

Lemma sanitize_identity_witness :
  Output.sanitizeFilename (js "banner.txt") = js "banner.txt".
Proof.
  apply sanitize_identity.
  - reflexivity.
  - repeat constructor.
  - intros c rest H. injection H as <- _. split; [discriminate | reflexivity].
  - intros init c H.
    assert (Hl : last (js "banner.txt") 0 = last (init ++ [c]) 0)
      by now rewrite H.
    rewrite last_last in Hl. rewrite <- Hl. reflexivity.
Defined.

Section UniqueFilenameFacts.

Variable access : js_string -> bool.
Variable path_join : js_string -> js_string -> js_string.
Variable dirPath sanitizedBase extension : js_string.

Lemma unique_loop_from (n : nat) :
  forall k,
    0 <= k <= 999 -> Z.of_nat n = 999 - k ->
    exists k',
      k <= k' <= 1000 /\
      Output.unique_loop access path_join dirPath sanitizedBase extension
        {| Output.filename := Output.candidate sanitizedBase extension k;
           Output.counter := k + 1 |}
      = Returned (Output.candidate sanitizedBase extension k') /\
      (forall j, k <= j < k' ->
         access (path_join dirPath
                   (Output.candidate sanitizedBase extension j)) = true) /\
      (k' < 1000 ->
       access (path_join dirPath
                 (Output.candidate sanitizedBase extension k')) = false).
Proof.
  induction n as [|n IH]; intros k Hk Hn;
    rewrite Output.unique_loop_equation; unfold Output.probe;
    cbn [Output.filename Output.counter];
    destruct (access (path_join dirPath
                        (Output.candidate sanitizedBase extension k))) eqn:E.
  - (* the last probe, of candidate 999, finds a file *)
    assert (k = 999) as -> by lia.
    change (999 + 1 + 1 >? 1000) with true. cbv iota.
    exists 1000. split; [lia|]. split; [reflexivity|]. split; [|lia].
    intros j Hj. assert (j = 999) as -> by lia. exact E.
  - exists k. split; [lia|]. split; [reflexivity|]. split; [lia|].
    intros _. exact E.
  - destruct (k + 1 + 1 >? 1000) eqn:Eover; [lia|].
    assert (Hnext : sanitizedBase ++ js "-" ++ Number_toString (k + 1)
                      ++ js "." ++ extension
                    = Output.candidate sanitizedBase extension (k + 1)).
    { unfold Output.candidate.
      destruct (k + 1 =? 0) eqn:E0; [lia | reflexivity]. }
    rewrite Hnext.
    destruct (IH (k + 1)) as (k' & Hk' & Hres & Hall & Hfree); try lia.
    exists k'. split; [lia|]. split; [exact Hres|]. split; [|exact Hfree].
    intros j Hj. destruct (Z.eq_dec j k) as [-> | Hne]; [exact E|].
    apply Hall. lia.
  - exists k. split; [lia|]. split; [reflexivity|]. split; [lia|].
    intros _. exact E.
Qed.

End UniqueFilenameFacts.

(** X22. [getUniqueFilename] always returns a name and never throws: the
    error of its safety limit is raised inside the [try] block and caught
    by the [catch] that returns the current name. The name returned is the
    first of the plain name and the names numbered 1 to 999 that cannot be
    accessed; when all 1000 of them can, it is the name numbered 1000,
    which was never probed. *)
Theorem unique_filename_outcome (access : js_string -> bool)
  (path_join : js_string -> js_string -> js_string)
  (dirPath baseName extension : js_string) :
  let sanitizedBase := Output.sanitizeFilename baseName in
  exists k,
    0 <= k <= 1000 /\
    Output.getUniqueFilename access path_join dirPath baseName extension
    = Returned (Output.candidate sanitizedBase extension k) /\
    (forall j, 0 <= j < k ->
       access (path_join dirPath
                 (Output.candidate sanitizedBase extension j)) = true) /\
    (k < 1000 ->
     access (path_join dirPath
               (Output.candidate sanitizedBase extension k)) = false).
Proof.
  cbv zeta. unfold Output.getUniqueFilename.
  destruct (unique_loop_from access path_join dirPath
              (Output.sanitizeFilename baseName) extension 999 0)
    as (k & Hk & Hres & Hall & Hfree); try lia.
  exists k. split; [lia|]. split; [exact Hres|]. split; assumption.
Qed.

Lemma unique_filename_outcome_witness :
  exists k,
    0 <= k <= 1000 /\
    Output.getUniqueFilename (fun path => (length path <? 9)%nat)
      (fun dir name => dir ++ js "/" ++ name) (js "d") (js "b") (js "txt")
    = Returned (Output.candidate (Output.sanitizeFilename (js "b"))
                  (js "txt") k) /\
    (k < 1000 ->
     (length (js "d" ++ js "/"
                ++ Output.candidate (Output.sanitizeFilename (js "b"))
                     (js "txt") k) <? 9)%nat = false).
Proof.
  destruct (unique_filename_outcome (fun path => (length path <? 9)%nat)
              (fun dir name => dir ++ js "/" ++ name)
              (js "d") (js "b") (js "txt"))
    as (k & Hk & Hres & _ & Hfree).
  exists k. split; [exact Hk|]. split; [exact Hres | exact Hfree].
Defined.

(** ** emoji.ts *)

(** X23. [parseEmojis] throws on the empty input and on an input whose
    comma-separated parts are all blank, each with its own message;
    otherwise it returns the resolved non-blank parts, trimmed, in order:
    a list that is never empty and never longer than the number of
    parts. *)
Theorem parseEmojis_outcome (resolveEmoji : js_string -> js_string)
  (input : js_string) :
  let parts := filter truthy (map trim (split 44 input)) in
  (input = [] ->
   Emoji.parseEmojis resolveEmoji input = Thrown "Emoji input is required") /\
  (input <> [] ->
   Forall (fun part => trim part = []) (split 44 input) ->
   Emoji.parseEmojis resolveEmoji input
   = Thrown "At least one emoji is required") /\
  ((exists part, In part (split 44 input) /\ trim part <> []) ->
   Emoji.parseEmojis resolveEmoji input = Returned (map resolveEmoji parts) /\
   parts <> [] /\
   (length parts <= length (split 44%Z input))%nat).
Proof.
  cbv zeta. unfold Emoji.parseEmojis. split; [|split].
  - intros ->. reflexivity.
  - intros Hne Hblank. destruct input as [|c rest]; [congruence|].
    cbn [truthy negb].
    assert (Hnone : filter truthy (map trim (split 44 (c :: rest))) = []).
    { induction Hblank as [|part parts Hp Hps IH]; [reflexivity|].
      cbn [map filter]. rewrite Hp. exact IH. }
    now rewrite Hnone.
  - intros (part & Hin & Htrim).
    assert (Hsome : In (trim part)
                      (filter truthy (map trim (split 44 input)))).
    { apply filter_In. split; [now apply in_map|].
      destruct (trim part); [congruence | reflexivity]. }
    assert (Hinput : input <> []).
    { intros ->. cbn in Hin. destruct Hin as [<- | []]. now apply Htrim. }
    destruct input as [|c rest]; [congruence|]. cbn [truthy negb].
    destruct (filter truthy (map trim (split 44 (c :: rest))))
      as [|p ps] eqn:Ep; [destruct Hsome|].
    split; [reflexivity|]. split; [discriminate|].
    rewrite <- Ep.
    etransitivity; [apply filter_length_le|]. now rewrite length_map.
Qed.

Lemma parseEmojis_outcome_witness :
  Emoji.parseEmojis (fun alias => alias) (js " fire , ,star")
  = Returned [js "fire"; js "star"] /\
  Emoji.parseEmojis (fun alias => alias) (js " , ")
  = Thrown "At least one emoji is required".
Proof.
  split.
  - apply (parseEmojis_outcome (fun alias => alias) (js " fire , ,star")).
    exists (js " fire "). split; [now left | discriminate].
  - apply (parseEmojis_outcome (fun alias => alias) (js " , "));
      [discriminate | repeat constructor].
Defined.

Lemma remove_trailing_colon_snoc (alias : js_string) :
  Emoji.remove_trailing_colon (alias ++ [58]) = alias.
Proof.
  induction alias as [|c rest IH]; [reflexivity|].
  cbn [app Emoji.remove_trailing_colon]. rewrite IH.
  destruct (rest ++ [58]) eqn:E; [destruct rest; discriminate | reflexivity].
Qed.

Lemma remove_trailing_colon_keep (init : js_string) (c : code_unit) :
  c <> 58 -> Emoji.remove_trailing_colon (init ++ [c]) = init ++ [c].
Proof.
  intros Hc. induction init as [|a rest IH].
  - cbn. apply Z.eqb_neq in Hc. now rewrite Hc.
  - cbn [app Emoji.remove_trailing_colon]. rewrite IH.
    destruct (rest ++ [c]) eqn:E; [destruct rest; discriminate | reflexivity].
Qed.

(** X24. For an alias without white space at its ends, [normalizeAlias]
    strips one pair of enclosing colons, and leaves alone an alias that
    neither starts nor ends with a colon. *)
Theorem normalizeAlias_colons (alias : js_string) :
  trim alias = alias ->
  Emoji.normalizeAlias ([58] ++ alias ++ [58]) = alias /\
  ((forall c rest, alias = c :: rest -> c <> 58) ->
   (forall init c, alias = init ++ [c] -> c <> 58) ->
   Emoji.normalizeAlias alias = alias).
Proof.
  intros Htrim. unfold Emoji.normalizeAlias. split.
  - cbn [app Emoji.remove_leading_colon]. change (58 =? 58) with true.
    cbv iota. now rewrite remove_trailing_colon_snoc.
  - intros Hhead Hlast. destruct alias as [|c rest]; [reflexivity|].
    specialize (Hhead c rest eq_refl). apply Z.eqb_neq in Hhead.
    cbn [Emoji.remove_leading_colon]. rewrite Hhead.
    destruct (exists_last (l := c :: rest)) as (init & last & Heq);
      [discriminate|].
    rewrite Heq in *. rewrite remove_trailing_colon_keep; [exact Htrim|].
    now apply (Hlast init).
Qed.

Lemma normalizeAlias_colons_witness :
  Emoji.normalizeAlias ([58] ++ js "fire" ++ [58]) = js "fire".
Proof. exact (proj1 (normalizeAlias_colons (js "fire") eq_refl)). Defined.
